(** * Cluster State Controller

    A shallow embedding of [cpp/log/cluster_state_controller-inl.h]
    (class [ClusterStateController<Logged>]) and the properties of its
    serving-STH calculator, election participation, serving-STH reconciler, peer
    registry and publisher thread.

    Conventions of the embedding:
    - protobuf integers are [Z]; the narrowing conversions the source
      performs ([int64_t timestamp(...)], [const int current_tree_size(...)])
      are written out with [wrap_signed];
    - [double] is IEEE 754 binary64, through the executable specification
      of the Standard Library ([SpecFloat], precision 53, emax 1024);
    - a failed [CHECK] or a [LOG(FATAL)] aborts the process: [Fatal];
    - every method body runs with [mutex_] held, so a method is one atomic
      step; the publisher thread is two steps, split where it unlocks;
    - [Database], [MasterElection] and [ConsistentStore] are interfaces of
      the repository: type classes here. *)

From Stdlib Require Import ZArith QArith Lia.
From Stdlib.Floats Require Import SpecFloat.
From stdpp Require Import gmap strings list fin_maps pretty sorting.

Local Open Scope Z_scope.

(** ** Machine numbers *)

(** Conversion of an integer to a signed integer type of [w] bits
    (two's complement, as every supported compiler does). *)
Definition wrap_signed (w : Z) (z : Z) : Z :=
  (z + 2 ^ (w - 1)) mod 2 ^ w - 2 ^ (w - 1).

Definition to_int64 : Z → Z := wrap_signed 64.
Definition to_int : Z → Z := wrap_signed 32.

Definition INT_MAX : Z := 2 ^ 31 - 1.
Definition UINT16_MAX : Z := 65535.

(** binary64 *)
Definition double : Type := spec_float.
Definition dprec : Z := 53.
Definition demax : Z := 1024.

(** [static_cast<double>(n)] for an integer [n]. *)
Definition double_of_Z (n : Z) : double := binary_normalize dprec demax n 0 false.
Definition double_div : double → double → double := SFdiv dprec demax.
Definition double_mul : double → double → double := SFmul dprec demax.
(** [x >= y] on doubles (false when either is NaN). *)
Definition double_ge (x y : double) : bool := SFleb y x.

(** The rational a finite double denotes (0 for infinities and NaN, which
    no statement below evaluates it on). *)
Definition double_to_Q (x : double) : Q :=
  match x with
  | S754_finite s m e =>
      Qmult (inject_Z (if s then Z.neg m else Z.pos m)) (Qpower (2 # 1) e)
  | _ => 0%Q
  end.

(** ** Messages (proto/ct.pb.h) *)

(** [ct::SignedTreeHead]: [timestamp] is a uint64 field, [tree_size] an
    int64 field; an unset field reads as its default. *)
Record SignedTreeHead := mkSTH {
  version : Z;
  key_id : string;
  timestamp : Z;
  tree_size : Z;
  sha256_root_hash : string
}.

(** A default-constructed [ct::SignedTreeHead]. *)
Definition default_sth : SignedTreeHead :=
  {| version := 0; key_id := ""; timestamp := 0; tree_size := 0;
     sha256_root_hash := "" |}.

(** [ct::ClusterNodeState]; [newest_sth = None] is [!has_newest_sth()]. *)
Record ClusterNodeState := mkNodeState {
  node_id : string;
  hostname : string;
  log_port : Z;
  newest_sth : option SignedTreeHead
}.

Definition default_node_state : ClusterNodeState :=
  {| node_id := ""; hostname := ""; log_port := 0; newest_sth := None |}.

(** [ct::ClusterConfig] *)
Record ClusterConfig := mkConfig {
  minimum_serving_nodes : Z;
  minimum_serving_fraction : double
}.

Definition default_config : ClusterConfig :=
  {| minimum_serving_nodes := 0; minimum_serving_fraction := S754_zero false |}.

(** [Update<T>]: [handle_.Key()], [exists_], [handle_.Entry()]. *)
Record Update (T : Type) := mkUpdate {
  Key : string;
  exists_ : bool;
  Entry : T
}.
Arguments mkUpdate {T} _ _ _.
Arguments Key {T} _.
Arguments exists_ {T} _.
Arguments Entry {T} _.

(** ** Process results *)

Inductive Result (A : Type) : Type :=
| Ok (a : A)
| Fatal.
Arguments Ok {A} _.
Arguments Fatal {A}.

(** ** [std::map<int64_t, V>]

    An ordered map: the list of its entries by strictly increasing key.
    [rbegin()..rend()] is the reversed list. *)
Definition omap (V : Type) : Type := list (Z * V).

(** [m[k] = f(m[k])], where [m[k]] value-initialises a missing entry to [d]. *)
Fixpoint om_upsert {V : Type} (d : V) (f : V → V) (k : Z) (m : omap V) : omap V :=
  match m with
  | [] => [(k, f d)]
  | (k', v) :: m' =>
      if k <? k' then (k, f d) :: m
      else if k =? k' then (k', f v) :: m'
      else (k', v) :: om_upsert d f k m'
  end.

(** [m[k]] read on a key (the default when it is missing). *)
Fixpoint om_at {V : Type} (d : V) (k : Z) (m : omap V) : V :=
  match m with
  | [] => d
  | (k', v) :: m' => if k =? k' then v else om_at d k m'
  end.

(** ** [CalculateServingSTH]: the computation *)

(** [sth_by_size[tree_size]] keeps the STH of the larger timestamp. *)
Definition newer_of (sth cur : SignedTreeHead) : SignedTreeHead :=
  if timestamp sth >? timestamp cur then sth else cur.

(** Body of the first loop, for one peer.  The counters of
    [num_nodes_by_sth_size] are [int]s; they count peers, and are kept in
    [Z]: no more than [INT_MAX] peers are assumed where a count matters. *)
Definition tally_node (node_state : ClusterNodeState)
    (acc : omap SignedTreeHead * omap Z) : Result (omap SignedTreeHead * omap Z) :=
  let '(sth_by_size, num_nodes_by_sth_size) := acc in
  match newest_sth node_state with
  | None => Ok acc
  | Some sth =>
      let tree_size := tree_size sth in
      if 0 <=? tree_size then
        let timestamp := to_int64 (timestamp sth) in
        if 0 <=? timestamp then
          Ok (om_upsert default_sth (newer_of sth) tree_size sth_by_size,
              om_upsert 0 Z.succ tree_size num_nodes_by_sth_size)
        else Fatal
      else Fatal
  end.

(** The first loop, over the peers in iteration order. *)
Fixpoint tally (peers : list ClusterNodeState)
    (acc : omap SignedTreeHead * omap Z) : Result (omap SignedTreeHead * omap Z) :=
  match peers with
  | [] => Ok acc
  | node_state :: rest =>
      match tally_node node_state acc with
      | Ok acc' => tally rest acc'
      | Fatal => Fatal
      end
  end.

(** A candidate is discarded unless it is strictly newer than the actual
    serving STH. *)
Definition stale (actual : option SignedTreeHead) (candidate : SignedTreeHead) : bool :=
  match actual with
  | Some a => timestamp candidate <=? timestamp a
  | None => false
  end.

(** The second loop: [buckets] is what is left of the reverse iteration,
    [num_nodes_seen] the count so far; [num_peers] is [all_peers_.size()]. *)
Fixpoint scan_buckets (config : ClusterConfig) (actual : option SignedTreeHead)
    (sth_by_size : omap SignedTreeHead) (num_peers : Z) (current_tree_size : Z)
    (buckets : list (Z * Z)) (num_nodes_seen : Z) : option SignedTreeHead :=
  match buckets with
  | [] => None
  | (size, n) :: rest =>
      if size >=? current_tree_size then
        let num_nodes_seen := num_nodes_seen + n in
        let serving_fraction :=
          double_div (double_of_Z num_nodes_seen) (double_of_Z num_peers) in
        if double_ge serving_fraction (minimum_serving_fraction config)
           && (num_nodes_seen >=? minimum_serving_nodes config) then
          let candidate_sth := om_at default_sth size sth_by_size in
          if stale actual candidate_sth then
            scan_buckets config actual sth_by_size num_peers current_tree_size
                         rest num_nodes_seen
          else Some candidate_sth
        else
          scan_buckets config actual sth_by_size num_peers current_tree_size
                       rest num_nodes_seen
      else None
  end.

(** The calculator on a snapshot of the peers' states: [Ok (Some sth)] when
    [calculated_serving_sth_] is reset to [sth], [Ok None] when it is left
    as it is ("Failed to determine suitable serving STH"). *)
Definition calculate (peers : list ClusterNodeState) (config : ClusterConfig)
    (calculated actual : option SignedTreeHead) : Result (option SignedTreeHead) :=
  match tally peers ([], []) with
  | Fatal => Fatal
  | Ok (sth_by_size, num_nodes_by_sth_size) =>
      let current_tree_size :=
        to_int (match calculated with Some c => tree_size c | None => 0 end) in
      if 0 <=? current_tree_size then
        Ok (scan_buckets config actual sth_by_size (Z.of_nat (length peers))
                         current_tree_size (rev num_nodes_by_sth_size) 0)
      else Fatal
  end.

(** ** Collaborators

    The interfaces the controller is constructed with.  Their declarations
    ([log/database.h], [util/masterelection.h], [log/consistent_store.h])
    are not among the sources at hand; the methods below are the ones the
    controller calls, with the result types it inspects. *)

(** Result of [Database::LatestTreeHead(&db_sth)]; on success [db_sth] is
    filled in. *)
Inductive LookupResult :=
| LOOKUP_OK (db_sth : SignedTreeHead)
| NOT_FOUND
| LOOKUP_FAILED.

Inductive WriteResult :=
| OK
| WRITE_FAILED.

Class Database (DB : Type) := {
  LatestTreeHead : DB → LookupResult;
  WriteTreeHead : SignedTreeHead → DB → WriteResult * DB
}.

Class MasterElection (EL : Type) := {
  StartElection : EL → EL;
  StopElection : EL → EL;
  IsMaster : EL → bool
}.

(** [SetClusterNodeState] returns [status.ok()]. *)
Class ConsistentStore (ST : Type) := {
  SetClusterNodeState : ClusterNodeState → ST → bool * ST;
  SetServingSTH : SignedTreeHead → ST → ST
}.

(** Invocations of the collaborators, recorded in program order. *)
Inductive Call :=
| CallLatestTreeHead
| CallWriteTreeHead (sth : SignedTreeHead)
| CallStartElection
| CallStopElection
| CallIsMaster
| CallSetClusterNodeState (state : ClusterNodeState)
| CallSetServingSTH (sth : SignedTreeHead).

(** ** [ClusterPeer]

    [client] is the URL the peer's [AsyncLogClient] was built with; it is
    fixed at construction. *)
Record ClusterPeer := mkPeer {
  client : string;
  state_ : ClusterNodeState
}.

Definition GetHostPort (p : ClusterPeer) : string * Z :=
  (hostname (state_ p), log_port (state_ p)).

(** [BuildAsyncLogClient]: the three CHECKs, then the URL. *)
Definition BuildAsyncLogClient (state : ClusterNodeState) : Result string :=
  if bool_decide (hostname state = "") then Fatal
  else if negb (log_port state >? 0) then Fatal
  else if negb (log_port state <=? UINT16_MAX) then Fatal
  else Ok ("http://" +:+ hostname state +:+ ":" +:+ pretty (log_port state)).

(** The constructor of [ClusterPeer]. *)
Definition new_ClusterPeer (state : ClusterNodeState) : Result ClusterPeer :=
  match BuildAsyncLogClient state with
  | Ok url => Ok {| client := url; state_ := state |}
  | Fatal => Fatal
  end.

(** [ClusterPeer::UpdateClusterNodeState] *)
Definition UpdateClusterNodeState (new_state : ClusterNodeState) (p : ClusterPeer)
    : Result ClusterPeer :=
  if negb (bool_decide (hostname (state_ p) = hostname new_state)) then Fatal
  else if negb (log_port (state_ p) =? log_port new_state) then Fatal
  else Ok {| client := client p; state_ := new_state |}.

(** [std::map::emplace]: no effect when the key is present. *)
Definition emplace (k : string) (p : ClusterPeer) (m : gmap string ClusterPeer)
    : gmap string ClusterPeer :=
  match m !! k with
  | Some _ => m
  | None => <[k := p]> m
  end.

(** Body of the loop of [OnClusterStateUpdated], for one update. *)
Definition apply_update (update : Update ClusterNodeState)
    (all_peers : gmap string ClusterPeer) : Result (gmap string ClusterPeer) :=
  let node_id := Key update in
  if exists_ update then
    let it := all_peers !! node_id in
    let '(all_peers, it) :=
      match it with
      | Some p =>
          if bool_decide (GetHostPort p
                          ≠ (hostname (Entry update), log_port (Entry update)))
          then (delete node_id all_peers, None)
          else (all_peers, it)
      | None => (all_peers, it)
      end in
    match it with
    | Some p =>
        match UpdateClusterNodeState (Entry update) p with
        | Ok p' => Ok (<[node_id := p']> all_peers)
        | Fatal => Fatal
        end
    | None =>
        match new_ClusterPeer (Entry update) with
        | Ok p' => Ok (emplace node_id p' all_peers)
        | Fatal => Fatal
        end
    end
  else
    match all_peers !! node_id with
    | Some _ => Ok (delete node_id all_peers)
    | None => Fatal
    end.

Fixpoint apply_updates (updates : list (Update ClusterNodeState))
    (all_peers : gmap string ClusterPeer) : Result (gmap string ClusterPeer) :=
  match updates with
  | [] => Ok all_peers
  | update :: rest =>
      match apply_update update all_peers with
      | Ok all_peers' => apply_updates rest all_peers'
      | Fatal => Fatal
      end
  end.

(** The states the calculator reads, one per peer.  The order is that of
    the map's list of entries; the calculator is specified for every order
    (it only decides which of two STHs of one size and one timestamp is
    kept). *)
Definition peer_states (all_peers : gmap string ClusterPeer) : list ClusterNodeState :=
  (λ kv, state_ (snd kv)) <$> map_to_list all_peers.

(** Where [cluster_serving_sth_update_thread_] stands: blocked in
    [update_required_cv_.wait], past [lock.unlock()] holding its copy
    [local_sth], or returned. *)
Inductive UpdaterThread :=
| Waiting
| Sending (local_sth : SignedTreeHead)
| Exited.

(** ** The controller *)

Section Controller.
Context {DB EL ST : Type}.
Context `{!Database DB, !MasterElection EL, !ConsistentStore ST}.

(** The members of [ClusterStateController], the collaborators it points
    to, the position of its thread and the log of collaborator calls. *)
Record Controller := mkController {
  local_node_state_ : ClusterNodeState;
  cluster_config_ : ClusterConfig;
  all_peers_ : gmap string ClusterPeer;
  calculated_serving_sth_ : option SignedTreeHead;
  actual_serving_sth_ : option SignedTreeHead;
  exiting_ : bool;
  update_required_ : bool;
  database_ : DB;
  store_ : ST;
  election_ : EL;
  updater_thread_ : UpdaterThread;
  calls : list Call
}.

Definition with_local_node_state (v : ClusterNodeState) (c : Controller) :=
  mkController v (cluster_config_ c) (all_peers_ c) (calculated_serving_sth_ c)
    (actual_serving_sth_ c) (exiting_ c) (update_required_ c) (database_ c)
    (store_ c) (election_ c) (updater_thread_ c) (calls c).
Definition with_cluster_config (v : ClusterConfig) (c : Controller) :=
  mkController (local_node_state_ c) v (all_peers_ c) (calculated_serving_sth_ c)
    (actual_serving_sth_ c) (exiting_ c) (update_required_ c) (database_ c)
    (store_ c) (election_ c) (updater_thread_ c) (calls c).
Definition with_all_peers (v : gmap string ClusterPeer) (c : Controller) :=
  mkController (local_node_state_ c) (cluster_config_ c) v (calculated_serving_sth_ c)
    (actual_serving_sth_ c) (exiting_ c) (update_required_ c) (database_ c)
    (store_ c) (election_ c) (updater_thread_ c) (calls c).
Definition with_calculated_serving_sth (v : option SignedTreeHead) (c : Controller) :=
  mkController (local_node_state_ c) (cluster_config_ c) (all_peers_ c) v
    (actual_serving_sth_ c) (exiting_ c) (update_required_ c) (database_ c)
    (store_ c) (election_ c) (updater_thread_ c) (calls c).
Definition with_actual_serving_sth (v : option SignedTreeHead) (c : Controller) :=
  mkController (local_node_state_ c) (cluster_config_ c) (all_peers_ c)
    (calculated_serving_sth_ c) v (exiting_ c) (update_required_ c) (database_ c)
    (store_ c) (election_ c) (updater_thread_ c) (calls c).
Definition with_exiting (v : bool) (c : Controller) :=
  mkController (local_node_state_ c) (cluster_config_ c) (all_peers_ c)
    (calculated_serving_sth_ c) (actual_serving_sth_ c) v (update_required_ c)
    (database_ c) (store_ c) (election_ c) (updater_thread_ c) (calls c).
Definition with_update_required (v : bool) (c : Controller) :=
  mkController (local_node_state_ c) (cluster_config_ c) (all_peers_ c)
    (calculated_serving_sth_ c) (actual_serving_sth_ c) (exiting_ c) v
    (database_ c) (store_ c) (election_ c) (updater_thread_ c) (calls c).
Definition with_database (v : DB) (c : Controller) :=
  mkController (local_node_state_ c) (cluster_config_ c) (all_peers_ c)
    (calculated_serving_sth_ c) (actual_serving_sth_ c) (exiting_ c)
    (update_required_ c) v (store_ c) (election_ c) (updater_thread_ c) (calls c).
Definition with_store (v : ST) (c : Controller) :=
  mkController (local_node_state_ c) (cluster_config_ c) (all_peers_ c)
    (calculated_serving_sth_ c) (actual_serving_sth_ c) (exiting_ c)
    (update_required_ c) (database_ c) v (election_ c) (updater_thread_ c) (calls c).
Definition with_election (v : EL) (c : Controller) :=
  mkController (local_node_state_ c) (cluster_config_ c) (all_peers_ c)
    (calculated_serving_sth_ c) (actual_serving_sth_ c) (exiting_ c)
    (update_required_ c) (database_ c) (store_ c) v (updater_thread_ c) (calls c).
Definition with_updater_thread (v : UpdaterThread) (c : Controller) :=
  mkController (local_node_state_ c) (cluster_config_ c) (all_peers_ c)
    (calculated_serving_sth_ c) (actual_serving_sth_ c) (exiting_ c)
    (update_required_ c) (database_ c) (store_ c) (election_ c) v (calls c).
Definition with_calls (v : list Call) (c : Controller) :=
  mkController (local_node_state_ c) (cluster_config_ c) (all_peers_ c)
    (calculated_serving_sth_ c) (actual_serving_sth_ c) (exiting_ c)
    (update_required_ c) (database_ c) (store_ c) (election_ c)
    (updater_thread_ c) v.

(** *** State and abort monad *)

Definition M (A : Type) : Type := Controller → Result (A * Controller).

#[export] Instance M_ret : MRet M := λ A a c, Ok (a, c).
#[export] Instance M_bind : MBind M := λ A B k m c,
  match m c with
  | Ok (a, c') => k a c'
  | Fatal => Fatal
  end.

Definition get : M Controller := λ c, Ok (c, c).
Definition modify (f : Controller → Controller) : M unit := λ c, Ok (tt, f c).
Definition fatal {A : Type} : M A := λ _, Fatal.
(** [CHECK(b)] *)
Definition CHECK (b : bool) : M unit := if b then mret tt else fatal.

(** What a method leaves behind. *)
Definition exec (m : M unit) (c : Controller) : Result Controller :=
  match m c with
  | Ok (_, c') => Ok c'
  | Fatal => Fatal
  end.

(** *** Calls through the collaborator pointers *)

Definition record_call (x : Call) : M unit :=
  modify (λ c, with_calls (calls c ++ [x]) c).

Definition election_StartElection : M unit :=
  record_call CallStartElection;;
  modify (λ c, with_election (StartElection (election_ c)) c).

Definition election_StopElection : M unit :=
  record_call CallStopElection;;
  modify (λ c, with_election (StopElection (election_ c)) c).

Definition election_IsMaster : M bool :=
  record_call CallIsMaster;;
  c ← get; mret (IsMaster (election_ c)).

Definition database_LatestTreeHead : M LookupResult :=
  record_call CallLatestTreeHead;;
  c ← get; mret (LatestTreeHead (database_ c)).

Definition database_WriteTreeHead (sth : SignedTreeHead) : M WriteResult :=
  record_call (CallWriteTreeHead sth);;
  c ← get;
  let '(r, db) := WriteTreeHead sth (database_ c) in
  modify (with_database db);; mret r.

Definition store_SetClusterNodeState (state : ClusterNodeState) : M bool :=
  record_call (CallSetClusterNodeState state);;
  c ← get;
  let '(ok, st) := SetClusterNodeState state (store_ c) in
  modify (with_store st);; mret ok.

Definition store_SetServingSTH (sth : SignedTreeHead) : M unit :=
  record_call (CallSetServingSTH sth);;
  modify (λ c, with_store (SetServingSTH sth (store_ c)) c).

(** *** Methods *)

Definition DetermineElectionParticipation : M unit :=
  c ← get;
  match actual_serving_sth_ c with
  | None => mret tt
  | Some actual =>
      match newest_sth (local_node_state_ c) with
      | None => election_StopElection
      | Some local =>
          if tree_size actual >? tree_size local then election_StopElection
          else election_StartElection
      end
  end.

Definition PushLocalNodeState : M unit :=
  DetermineElectionParticipation;;
  c ← get;
  _ ← store_SetClusterNodeState (local_node_state_ c);
  mret tt.

Definition NewTreeHead (sth : SignedTreeHead) : M unit :=
  c ← get;
  match newest_sth (local_node_state_ c) with
  | Some old => CHECK (timestamp sth >=? timestamp old)
  | None => mret tt
  end;;
  modify (λ c, with_local_node_state
                 {| node_id := node_id (local_node_state_ c);
                    hostname := hostname (local_node_state_ c);
                    log_port := log_port (local_node_state_ c);
                    newest_sth := Some sth |} c);;
  PushLocalNodeState.

(** [port] is a [uint16_t]. *)
Definition SetNodeHostPort (host : string) (port : Z) : M unit :=
  modify (λ c, with_local_node_state
                 {| node_id := node_id (local_node_state_ c);
                    hostname := host;
                    log_port := port;
                    newest_sth := newest_sth (local_node_state_ c) |} c);;
  PushLocalNodeState.

Definition CalculateServingSTH : M unit :=
  c ← get;
  match calculate (peer_states (all_peers_ c)) (cluster_config_ c)
                  (calculated_serving_sth_ c) (actual_serving_sth_ c) with
  | Fatal => fatal
  | Ok None => mret tt
  | Ok (Some candidate_sth) =>
      modify (with_calculated_serving_sth (Some candidate_sth));;
      master ← election_IsMaster;
      if master : bool then modify (with_update_required true) else mret tt
  end.

Definition OnClusterStateUpdated (updates : list (Update ClusterNodeState)) : M unit :=
  c ← get;
  match apply_updates updates (all_peers_ c) with
  | Fatal => fatal
  | Ok all_peers => modify (with_all_peers all_peers);; CalculateServingSTH
  end.

Definition OnClusterConfigUpdated (update : Update ClusterConfig) : M unit :=
  if negb (exists_ update) then mret tt
  else
    modify (with_cluster_config (Entry update));;
    CalculateServingSTH.

(** The [switch] on the lookup result: whether to write the STH. *)
Definition check_against_database (actual : SignedTreeHead)
    (lookup_result : LookupResult) : M bool :=
  match lookup_result with
  | LOOKUP_OK db_sth =>
      CHECK (bool_decide (key_id actual = key_id db_sth));;
      CHECK (version actual =? version db_sth);;
      if timestamp db_sth =? timestamp actual then
        CHECK (tree_size actual =? tree_size db_sth);;
        CHECK (bool_decide (sha256_root_hash actual = sha256_root_hash db_sth));;
        mret false
      else
        CHECK (timestamp actual >? timestamp db_sth);;
        CHECK (tree_size actual >=? tree_size db_sth);;
        mret true
  | NOT_FOUND => mret true
  | LOOKUP_FAILED => fatal
  end.

Definition OnServingSthUpdated (update : Update SignedTreeHead) : M unit :=
  if negb (exists_ update) then
    modify (with_actual_serving_sth None);;
    DetermineElectionParticipation
  else if timestamp (Entry update) =? 0 then mret tt
  else
    modify (with_actual_serving_sth (Some (Entry update)));;
    lookup_result ← database_LatestTreeHead;
    write_sth ← check_against_database (Entry update) lookup_result;
    (if write_sth : bool then
       r ← database_WriteTreeHead (Entry update);
       CHECK (match r with OK => true | WRITE_FAILED => false end)
     else mret tt);;
    DetermineElectionParticipation.

(** [ClusterServingSTHUpdater], from the wait to [lock.unlock()].  The
    thread stays in the wait while neither flag is set. *)
Definition ClusterServingSTHUpdater_locked : M unit :=
  c ← get;
  match updater_thread_ c with
  | Waiting =>
      if update_required_ c || exiting_ c then
        if exiting_ c then modify (with_updater_thread Exited)
        else
          CHECK (update_required_ c);;
          match calculated_serving_sth_ c with
          | None => fatal
          | Some local_sth =>
              modify (with_update_required false);;
              modify (with_updater_thread (Sending local_sth))
          end
      else mret tt
  | _ => mret tt
  end.

(** [ClusterServingSTHUpdater], after [lock.unlock()], back to the wait. *)
Definition ClusterServingSTHUpdater_unlocked : M unit :=
  c ← get;
  match updater_thread_ c with
  | Sending local_sth =>
      master ← election_IsMaster;
      (if master : bool then store_SetServingSTH local_sth else mret tt);;
      modify (with_updater_thread Waiting)
  | _ => mret tt
  end.

(** The destructor, up to [notify_all]. *)
Definition destroy : M unit := modify (with_exiting true).

(** The constructor. *)
Definition new_ClusterStateController (database : DB) (store : ST) (election : EL)
    : Controller :=
  {| local_node_state_ := default_node_state;
     cluster_config_ := default_config;
     all_peers_ := ∅;
     calculated_serving_sth_ := None;
     actual_serving_sth_ := None;
     exiting_ := false;
     update_required_ := false;
     database_ := database;
     store_ := store;
     election_ := election;
     updater_thread_ := Waiting;
     calls := [] |}.

(** *** Steps of the running system *)

Inductive Op :=
| OpNewTreeHead (sth : SignedTreeHead)
| OpSetNodeHostPort (host : string) (port : Z)
| OpClusterStateUpdated (updates : list (Update ClusterNodeState))
| OpClusterConfigUpdated (update : Update ClusterConfig)
| OpServingSthUpdated (update : Update SignedTreeHead)
| OpUpdaterLocked
| OpUpdaterUnlocked
| OpDestroy
| OpEnvironment (database : DB) (store : ST) (election : EL).

Definition run_op (op : Op) : M unit :=
  match op with
  | OpNewTreeHead sth => NewTreeHead sth
  | OpSetNodeHostPort host port => SetNodeHostPort host port
  | OpClusterStateUpdated updates => OnClusterStateUpdated updates
  | OpClusterConfigUpdated update => OnClusterConfigUpdated update
  | OpServingSthUpdated update => OnServingSthUpdated update
  | OpUpdaterLocked => ClusterServingSTHUpdater_locked
  | OpUpdaterUnlocked => ClusterServingSTHUpdater_unlocked
  | OpDestroy => destroy
  | OpEnvironment database store election =>
      modify (λ c, with_election election (with_store store (with_database database c)))
  end.

Fixpoint run (ops : list Op) (c : Controller) : Result Controller :=
  match ops with
  | [] => Ok c
  | op :: rest =>
      match exec (run_op op) c with
      | Ok c' => run rest c'
      | Fatal => Fatal
      end
  end.

(** States some interleaving of the operations leads to. *)
Inductive reachable : Controller → Prop :=
| reachable_new database store election :
    reachable (new_ClusterStateController database store election)
| reachable_step op c c' :
    reachable c → exec (run_op op) c = Ok c' → reachable c'.

End Controller.

Arguments Controller : clear implicits.
Arguments Op : clear implicits.

(** ** Reference collaborators *)

(** Modelled from the spec: the database of section 6, which keeps the latest
    tree head ([log/database.h] and its implementations are not among the
    sources at hand).  The state is what [LatestTreeHead] answers;
    [WriteTreeHead] stores the STH and returns OK. *)
Definition MemDatabase : Type := LookupResult.

#[export] Instance MemDatabase_Database : Database MemDatabase := {
  LatestTreeHead db := db;
  WriteTreeHead sth _ := (OK, LOOKUP_OK sth)
}.

(** Modelled from the spec: the election primitive of section 6
    ([util/masterelection.h] is not among the sources at hand), as the flag
    [StartElection] and [StopElection] toggle, and whether the node
    currently is master. *)
Record MemElection := mkElection {
  running : bool;
  master : bool
}.

#[export] Instance MemElection_MasterElection : MasterElection MemElection := {
  StartElection e := {| running := true; master := master e |};
  StopElection e := {| running := false; master := false |};
  IsMaster e := master e
}.

(** Modelled from the spec: the consistent store of section 6
    ([log/consistent_store.h] is not among the sources at hand), as the last
    values set. *)
Record MemStore := mkStore {
  stored_node_state : option ClusterNodeState;
  stored_serving_sth : option SignedTreeHead
}.

#[export] Instance MemStore_ConsistentStore : ConsistentStore MemStore := {
  SetClusterNodeState state s :=
    (true, {| stored_node_state := Some state;
              stored_serving_sth := stored_serving_sth s |});
  SetServingSTH sth s :=
    {| stored_node_state := stored_node_state s; stored_serving_sth := Some sth |}
}.

Definition MemController : Type := Controller MemDatabase MemElection MemStore.

(** A fresh controller of a node that is not master, with an empty database
    and an empty store. *)
Definition fresh : MemController :=
  new_ClusterStateController NOT_FOUND (mkStore None None) (mkElection false false).

(** ** Proof support *)

(** Unfolds the monad down to matches on [Result]. *)
Ltac monad_unfold :=
  unfold exec, run_op, NewTreeHead, SetNodeHostPort, PushLocalNodeState,
    OnClusterStateUpdated, OnClusterConfigUpdated, OnServingSthUpdated,
    check_against_database, CalculateServingSTH, DetermineElectionParticipation,
    ClusterServingSTHUpdater_locked, ClusterServingSTHUpdater_unlocked, destroy,
    election_StartElection, election_StopElection, election_IsMaster,
    database_LatestTreeHead, database_WriteTreeHead, store_SetClusterNodeState,
    store_SetServingSTH, record_call, CHECK, fatal, modify, get,
    mbind, M_bind, mret, M_ret in *.

(** Splits on the scrutinee of the innermost stuck match. *)
Ltac case_step :=
  match goal with
  | H : context [match ?x with _ => _ end] |- _ =>
      lazymatch x with
      | context [match _ with _ => _ end] => fail
      | _ => destruct x eqn:?
      end
  | |- context [match ?x with _ => _ end] =>
      lazymatch x with
      | context [match _ with _ => _ end] => fail
      | _ => destruct x eqn:?
      end
  end.

(** The calls an operation appended, when they end with those of
    [DetermineElectionParticipation]. *)
Ltac participation_calls :=
  rewrite <- ?app_assoc; eexists; (split; [reflexivity|]);
  repeat constructor; by (left + right).

Ltac cases := repeat (cbn in *; try case_step; simplify_eq).

(** ** Vocabulary of the properties *)

(** Whether a peer has replicated at least [s] leaves. *)
Definition covers (s : Z) (node_state : ClusterNodeState) : bool :=
  match newest_sth node_state with
  | Some sth => s <=? tree_size sth
  | None => false
  end.

(** The number of peers whose newest STH has a tree size of at least [s]. *)
Fixpoint coverage (s : Z) (peers : list ClusterNodeState) : Z :=
  match peers with
  | [] => 0
  | node_state :: rest => (if covers s node_state then 1 else 0) + coverage s rest
  end.

(** The nodes counted in a list of buckets, and those in buckets of size
    at least [s]. *)
Fixpoint total (buckets : list (Z * Z)) : Z :=
  match buckets with
  | [] => 0
  | (_, n) :: rest => n + total rest
  end.

Fixpoint above (s : Z) (buckets : list (Z * Z)) : Z :=
  match buckets with
  | [] => 0
  | (k, n) :: rest => (if s <=? k then n else 0) + above s rest
  end.

(** The order of the keys of a [std::map]. *)
Definition key_lt {V : Type} (a b : Z * V) : Prop := a.1 < b.1.

(** Every STH kept for a size is of that size, or still the default one. *)
Definition tagged (sth_by_size : omap SignedTreeHead) : Prop :=
  ∀ k v, (k, v) ∈ sth_by_size → v = default_sth ∨ tree_size v = k.

(** What one invocation of the calculator sees besides
    [calculated_serving_sth_]. *)
Record CalculatorInput := mkInput {
  in_peers : list ClusterNodeState;
  in_config : ClusterConfig;
  in_actual : option SignedTreeHead
}.

(** An invocation that reset [calculated_serving_sth_]. *)
Record Replacement := mkReplacement {
  at_actual : option SignedTreeHead;
  previous : option SignedTreeHead;
  replaced_by : SignedTreeHead
}.

(** The replacements over a sequence of invocations, oldest first (up to
    the first fatal one, if any). *)
Fixpoint calculator_run (inputs : list CalculatorInput)
    (calculated : option SignedTreeHead) : list Replacement :=
  match inputs with
  | [] => []
  | i :: rest =>
      match calculate (in_peers i) (in_config i) calculated (in_actual i) with
      | Ok (Some new) =>
          {| at_actual := in_actual i; previous := calculated; replaced_by := new |}
            :: calculator_run rest (Some new)
      | Ok None => calculator_run rest calculated
      | Fatal => []
      end
  end.

Definition tree_size_or_0 (o : option SignedTreeHead) : Z :=
  match o with
  | Some sth => tree_size sth
  | None => 0
  end.

(** The coverage property with the fraction taken over the rationals:
    the peers at or above the selected size are at least
    [minimum_serving_nodes] and at least [minimum_serving_fraction] times
    the number of peers. *)
Definition coverage_respected (peers : list ClusterNodeState) (config : ClusterConfig)
    (calculated actual : option SignedTreeHead) : Prop :=
  ∀ candidate,
    calculate peers config calculated actual = Ok (Some candidate) →
    let n := coverage (tree_size candidate) peers in
    minimum_serving_nodes config ≤ n
    ∧ Qle (Qmult (double_to_Q (minimum_serving_fraction config))
                 (inject_Z (Z.of_nat (length peers))))
          (inject_Z n).

(** Timestamps of successive calculated STHs increase while an actual
    serving STH is set. *)
Definition timestamps_increase (inputs : list CalculatorInput)
    (calculated : option SignedTreeHead) : Prop :=
  Forall (λ r, is_Some (at_actual r) →
               ∀ prev, previous r = Some prev →
                       timestamp prev < timestamp (replaced_by r))
         (calculator_run inputs calculated).

(** The endpoint of a node state is one a log client can be built for. *)
Definition valid_endpoint (state : ClusterNodeState) : Prop :=
  hostname state ≠ "" ∧ 0 < log_port state ≤ UINT16_MAX.

(** The calls [DetermineElectionParticipation] makes. *)
Definition participation_call (x : Call) : Prop :=
  x = CallStartElection ∨ x = CallStopElection.

(** ** Example data *)

Definition example_sth (ts size : Z) : SignedTreeHead :=
  {| version := 0; key_id := "log"; timestamp := ts; tree_size := size;
     sha256_root_hash := "root" |}.

Definition example_node (id : string) (sth : option SignedTreeHead) : ClusterNodeState :=
  {| node_id := id; hostname := "host-" +:+ id; log_port := 80; newest_sth := sth |}.

(** 0.5, 0.75, and the double nearest to 0.28. *)
Definition half : double := S754_finite false 4503599627370496 (-53).
Definition three_quarters : double := S754_finite false 6755399441055744 (-53).
Definition d0_28 : double := S754_finite false 5044031582654956 (-54).

(** The peers of scenario S1: sizes (10, 10, 10, 5), timestamps
    (100, 101, 102, 50); its configuration is (3, 0.75). *)
Definition basic_quorum : list ClusterNodeState :=
  [ example_node "p1" (Some (example_sth 100 10));
    example_node "p2" (Some (example_sth 101 10));
    example_node "p3" (Some (example_sth 102 10));
    example_node "p4" (Some (example_sth 50 5)) ].

(** 25 peers: seven at size 10, eighteen that have not announced an STH. *)
Definition seven_of_25 : list ClusterNodeState :=
  ((λ i : nat, example_node (pretty i) (Some (example_sth 1 10))) <$> seq 0 7)
  ++ ((λ i : nat, example_node (pretty i) None) <$> seq 7 18).

(** Two peers hold STHs of the same tree, signed at different times; then
    the one with the newer STH leaves. *)
Definition node_leaves : list CalculatorInput :=
  [ {| in_peers := [example_node "a" (Some (example_sth 100 5));
                    example_node "b" (Some (example_sth 60 5))];
       in_config := mkConfig 1 half;
       in_actual := Some (example_sth 50 3) |};
    {| in_peers := [example_node "b" (Some (example_sth 60 5))];
       in_config := mkConfig 1 half;
       in_actual := Some (example_sth 50 3) |} ].

(** A peer at size 5; then a peer whose STH of size 7 has timestamp 0. *)
Definition zero_timestamp_bucket : list CalculatorInput :=
  [ {| in_peers := [example_node "a" (Some (example_sth 100 5))];
       in_config := mkConfig 1 half;
       in_actual := None |};
    {| in_peers := [example_node "b" (Some (example_sth 0 7))];
       in_config := mkConfig 1 half;
       in_actual := None |} ].

(** A peer at size 2^32; then a peer at size 1. *)
Definition size_beyond_int : list CalculatorInput :=
  [ {| in_peers := [example_node "a" (Some (example_sth 100 (2 ^ 32)))];
       in_config := mkConfig 1 half;
       in_actual := None |};
    {| in_peers := [example_node "b" (Some (example_sth 101 1))];
       in_config := mkConfig 1 half;
       in_actual := None |} ].

(** The serving STH appears, the node catches up with it, the serving STH
    is deleted from the store. *)
Definition serving_sth_deleted : list (Op MemDatabase MemElection MemStore) :=
  [ OpServingSthUpdated (mkUpdate "serving_sth" true (example_sth 200 100));
    OpNewTreeHead (example_sth 201 100);
    OpServingSthUpdated (mkUpdate "serving_sth" false default_sth) ].

(** A registry with node n1 at port 80, and the update that moves it to
    port 81. *)
Definition n1_at_80 : gmap string ClusterPeer :=
  {[ "n1" := {| client := "http://h1:80";
                state_ := mkNodeState "n1" "h1" 80 None |} ]}.

Definition n1_to_81 : Update ClusterNodeState :=
  mkUpdate "n1" true (mkNodeState "n1" "h1" 81 None).

(** A controller whose database holds (timestamp 100, size 5). *)
Definition with_stored_sth : MemController :=
  new_ClusterStateController (LOOKUP_OK (example_sth 100 5)) (mkStore None None)
                             (mkElection false false).

(** The state a sequence of operations leads to (the starting state when
    it is fatal). *)
Definition after (ops : list (Op MemDatabase MemElection MemStore))
    (c : MemController) : MemController :=
  match run ops c with
  | Ok c' => c'
  | Fatal => c
  end.

(** A node that is master learns of its first peer. *)
Definition first_peer_joins : list (Op MemDatabase MemElection MemStore) :=
  [ OpClusterStateUpdated
      [mkUpdate "a" true (example_node "a" (Some (example_sth 100 5)))] ].

Definition fresh_master : MemController :=
  new_ClusterStateController NOT_FOUND (mkStore None None) (mkElection true true).

(** A master with a calculated STH to publish. *)
Definition master_with_candidate : MemController :=
  with_update_required true
    (with_calculated_serving_sth (Some (example_sth 102 10))
       (new_ClusterStateController NOT_FOUND (mkStore None None)
                                   (mkElection true true))).

(** ** Vocabulary of the further properties *)

(** The number of peers whose newest STH has a tree size of exactly [s]. *)
Fixpoint count_at (s : Z) (peers : list ClusterNodeState) : Z :=
  match peers with
  | [] => 0
  | node_state :: rest =>
      (match newest_sth node_state with
       | Some sth => if tree_size sth =? s then 1 else 0
       | None => 0
       end) + count_at s rest
  end.

(** [sth] is the newest STH of a peer, and of size [s]. *)
Definition in_bucket (s : Z) (peers : list ClusterNodeState) (sth : SignedTreeHead) : Prop :=
  ∃ node_state, node_state ∈ peers ∧ newest_sth node_state = Some sth ∧ tree_size sth = s.

(** The test of the second loop on [n] nodes seen, of [num_peers]. *)
Definition enough (config : ClusterConfig) (num_peers n : Z) : bool :=
  double_ge (double_div (double_of_Z n) (double_of_Z num_peers))
            (minimum_serving_fraction config)
  && (n >=? minimum_serving_nodes config).

(** An actual serving STH is at least as new as every STH of size [s]. *)
Definition outdated (actual : option SignedTreeHead) (s : Z)
    (peers : list ClusterNodeState) : Prop :=
  ∃ a, actual = Some a ∧ ∀ sth, in_bucket s peers sth → timestamp sth ≤ timestamp a.

(** A peer state on which the first loop aborts. *)
Definition rejected (node_state : ClusterNodeState) : Prop :=
  ∃ sth, newest_sth node_state = Some sth
         ∧ (tree_size sth < 0 ∨ to_int64 (timestamp sth) < 0).

(** What the first loop maintains, over the peers it has read. *)
Definition tallied (peers : list ClusterNodeState)
    (acc : omap SignedTreeHead * omap Z) : Prop :=
  StronglySorted key_lt acc.1
  ∧ StronglySorted key_lt acc.2
  ∧ Forall (λ kv, 0 ≤ kv.1 ∧ 0 < kv.2) acc.2
  ∧ (∀ s, om_at 0 s acc.2 = count_at s peers)
  ∧ ∀ s, let kept := om_at default_sth s acc.1 in
         (kept = default_sth ∨ (in_bucket s peers kept ∧ 0 < timestamp kept))
         ∧ 0 ≤ timestamp kept
         ∧ ∀ sth, in_bucket s peers sth → timestamp sth ≤ timestamp kept.

(** [ClusterPeer::TreeSize]: an unset [newest_sth] reads as the default STH. *)
Definition TreeSize (p : ClusterPeer) : Z :=
  match newest_sth (state_ p) with
  | Some sth => tree_size sth
  | None => tree_size default_sth
  end.

(** [util::StatusOr<T>], as far as the controller builds it. *)
Inductive StatusOr (T : Type) : Type :=
| StatusOK (value : T)
| StatusNotFound (message : string).
Arguments StatusOK {T} _.
Arguments StatusNotFound {T} _.

Definition GetCalculatedServingSTH {DB EL ST : Type} (c : Controller DB EL ST)
    : StatusOr SignedTreeHead :=
  match calculated_serving_sth_ c with
  | None => StatusNotFound "No calculated STH"
  | Some sth => StatusOK sth
  end.

(** [GetLocalNodeState]: the value stored through the out-parameter. *)
Definition GetLocalNodeState {DB EL ST : Type} (c : Controller DB EL ST)
    : ClusterNodeState :=
  local_node_state_ c.

(** Every peer's log client is the one [BuildAsyncLogClient] makes for the
    peer's current state. *)
Definition clients_match (all_peers : gmap string ClusterPeer) : Prop :=
  ∀ k p, all_peers !! k = Some p → BuildAsyncLogClient (state_ p) = Ok (client p).

(** What the updates say about node [k] last. *)
Definition last_update (k : string) (updates : list (Update ClusterNodeState))
    : option (Update ClusterNodeState) :=
  last (filter (λ u, Key u = k) updates).

(** An operation of the controller itself. *)
Definition own_op {DB EL ST : Type} (op : Op DB EL ST) : Prop :=
  match op with
  | OpEnvironment _ _ _ => False
  | _ => True
  end.

(** Whether the node may stand for election: it has an STH at least as
    large as the actual serving STH. *)
Definition eligible {DB EL ST : Type} (c : Controller DB EL ST) : bool :=
  match actual_serving_sth_ c, newest_sth (local_node_state_ c) with
  | Some actual, Some local => tree_size actual <=? tree_size local
  | _, _ => false
  end.

(** Two STHs agree on the fields the reconciler compares. *)
Definition same_tree_head (a b : SignedTreeHead) : Prop :=
  key_id a = key_id b ∧ version a = version b ∧ timestamp a = timestamp b
  ∧ tree_size a = tree_size b ∧ sha256_root_hash a = sha256_root_hash b.

(** The calls made since the log was [before]. *)
Definition calls_since {DB EL ST : Type} (before : list Call) (c : Controller DB EL ST)
    : list Call :=
  drop (length before) (calls c).

Definition is_SetServingSTH (x : Call) : Prop :=
  match x with
  | CallSetServingSTH _ => True
  | _ => False
  end.

Definition is_election_call (x : Call) : bool :=
  match x with
  | CallStartElection | CallStopElection => true
  | _ => false
  end.

(** The most recent of the calls to [StartElection] and [StopElection]. *)
Fixpoint last_election_call (l : list Call) : option Call :=
  match l with
  | [] => None
  | x :: rest =>
      match last_election_call rest with
      | Some y => Some y
      | None => if is_election_call x then Some x else None
      end
  end.

(** The number of peers that report a [TreeSize()] of at least [s]. *)
Fixpoint count_TreeSize_ge (s : Z) (peers : list ClusterPeer) : Z :=
  match peers with
  | [] => 0
  | p :: rest => (if s <=? TreeSize p then 1 else 0) + count_TreeSize_ge s rest
  end.

(** ** Example data for the further properties *)

(** The peers of scenario S2: sizes (10, 10, 5, 5). *)
Definition split_quorum : list ClusterNodeState :=
  [ example_node "p1" (Some (example_sth 100 10));
    example_node "p2" (Some (example_sth 101 10));
    example_node "p3" (Some (example_sth 50 5));
    example_node "p4" (Some (example_sth 51 5)) ].

(** The maps the first loop builds from [basic_quorum]. *)
Definition basic_sth_by_size : omap SignedTreeHead :=
  [ (5, example_sth 50 5); (10, example_sth 102 10) ].
Definition basic_num_nodes_by_sth_size : omap Z := [ (5, 1); (10, 3) ].

(** Node n2 joins and node n1 moves to port 81, in one batch. *)
Definition n2_joins_n1_moves : list (Update ClusterNodeState) :=
  [ mkUpdate "n2" true (mkNodeState "n2" "h2" 80 None); n1_to_81 ].

(** Node n1 announces an STH from the endpoint it already has. *)
Definition n1_announces : Update ClusterNodeState :=
  mkUpdate "n1" true (mkNodeState "n1" "h1" 80 (Some (example_sth 100 5))).

(** Two peers as the registry holds them: one at size 5, one without STH. *)
Definition two_peers : list ClusterPeer :=
  [ {| client := "http://host-a:80";
       state_ := example_node "a" (Some (example_sth 100 5)) |};
    {| client := "http://host-b:80"; state_ := example_node "b" None |} ].

(** The serving STH (200, 100) appears and the node reports (201, 100). *)
Definition node_catches_up : list (Op MemDatabase MemElection MemStore) :=
  [ OpServingSthUpdated (mkUpdate "serving_sth" true (example_sth 200 100));
    OpNewTreeHead (example_sth 201 100) ].

(** A node that requested a publication and has lost mastership since. *)
Definition demoted_master : MemController :=
  with_election (mkElection true false) master_with_candidate.

(** A controller whose publisher thread has returned. *)
Definition exited_publisher : MemController :=
  with_updater_thread Exited (with_exiting true master_with_candidate).

(** The local node reports the tree head (201, 100). *)
Definition reports_tree_head : Op MemDatabase MemElection MemStore :=
  OpNewTreeHead (example_sth 201 100).

(** The serving STH of scenario S4, and the configuration of scenario S1. *)
Definition s4_update : Update SignedTreeHead :=
  mkUpdate "serving_sth" true (example_sth 150 7).
Definition s1_config : Update ClusterConfig :=
  mkUpdate "cluster_config" true (mkConfig 3 three_quarters).

(** ** The calculator *)

Section Calculator.

Lemma total_app l1 l2 : total (l1 ++ l2) = total l1 + total l2.
Proof. induction l1 as [|[k n] l1 IH]; simpl; lia. Qed.

Lemma total_rev l : total (rev l) = total l.
Proof. induction l as [|[k n] l IH]; simpl; [done|]. rewrite total_app. simpl. lia. Qed.

Lemma above_app s l1 l2 : above s (l1 ++ l2) = above s l1 + above s l2.
Proof. induction l1 as [|[k n] l1 IH]; simpl; lia. Qed.

Lemma above_all s l : Forall (λ kv, s < kv.1) l → above s l = total l.
Proof.
  induction 1 as [|[k n] l Hk _ IH]; simpl in *; [done|].
  rewrite IH. destruct (Z.leb_spec s k); lia.
Qed.

Lemma above_none s l : Forall (λ kv, kv.1 < s) l → above s l = 0.
Proof.
  induction 1 as [|[k n] l Hk _ IH]; simpl in *; [done|].
  rewrite IH. destruct (Z.leb_spec s k); lia.
Qed.

Lemma above_upsert s k m :
  above s (om_upsert 0 Z.succ k m) = above s m + (if s <=? k then 1 else 0).
Proof.
  induction m as [|[k' n] m IH]; simpl.
  - destruct (s <=? k); lia.
  - destruct (Z.ltb_spec k k'); simpl; [destruct (s <=? k); lia|].
    destruct (Z.eqb_spec k k'); simpl; subst.
    + destruct (s <=? k'); lia.
    + rewrite IH. lia.
Qed.

Lemma upsert_sorted {V : Type} (d : V) f k (m : omap V) :
  StronglySorted key_lt m → StronglySorted key_lt (om_upsert d f k m).
Proof.
  induction 1 as [|[k' v] m Hm IH Hall]; simpl.
  - repeat constructor.
  - destruct (Z.ltb_spec k k').
    + constructor; [by constructor|]. constructor; [done|].
      eapply Forall_impl; [exact Hall|]. intros [??]; unfold key_lt; simpl; lia.
    + destruct (Z.eqb_spec k k'); [by constructor|].
      constructor; [done|].
      assert (Hin : ∀ x, x ∈ om_upsert d f k m → x ∈ m ∨ x.1 = k).
      { clear. induction m as [|[k2 v2] m IHm]; simpl; intros x Hx.
        - apply list_elem_of_singleton in Hx. subst. by right.
        - destruct (k <? k2).
          + apply elem_of_cons in Hx as [->|Hx]; [by right|by left].
          + destruct (k =? k2) eqn:E.
            * apply Z.eqb_eq in E. subst.
              apply elem_of_cons in Hx as [->|Hx]; [by right|].
              left. by right.
            * apply elem_of_cons in Hx as [->|Hx]; [left; by left|].
              destruct (IHm _ Hx); [left; by right|by right]. }
      apply Forall_forall. intros x Hx. apply Hin in Hx as [Hx|Hx].
      * rewrite Forall_forall in Hall. by apply Hall.
      * unfold key_lt; simpl. lia.
Qed.

Lemma upsert_keys_nonneg k m :
  0 ≤ k → Forall (λ kv, 0 ≤ kv.1) m →
  Forall (λ kv : Z * Z, 0 ≤ kv.1) (om_upsert 0 Z.succ k m).
Proof.
  intros Hk. induction 1 as [|[k' n] m Hk' Hm IH]; simpl.
  - by repeat constructor.
  - destruct (k <? k'); [by repeat constructor|].
    destruct (k =? k'); by constructor.
Qed.

Lemma upsert_tagged sth m :
  tagged m → tagged (om_upsert default_sth (newer_of sth) (tree_size sth) m).
Proof.
  unfold tagged. induction m as [|[k' v'] m IH]; simpl; intros Hm k v Hin.
  - apply list_elem_of_singleton in Hin. simplify_eq.
    unfold newer_of. destruct (_ >? _); auto.
  - destruct (tree_size sth <? k').
    + apply elem_of_cons in Hin as [Hin|Hin]; [|by apply Hm].
      simplify_eq. unfold newer_of. destruct (_ >? _); auto.
    + destruct (Z.eqb_spec (tree_size sth) k').
      * apply elem_of_cons in Hin as [Hin|Hin].
        -- simplify_eq. unfold newer_of. destruct (_ >? _); [auto|].
           apply Hm. by left.
        -- apply Hm. by right.
      * apply elem_of_cons in Hin as [Hin|Hin].
        -- simplify_eq. apply Hm. by left.
        -- apply IH; [|done]. intros ???. apply Hm. by right.
Qed.

Lemma om_at_tagged m k :
  tagged m →
  om_at default_sth k m = default_sth ∨ tree_size (om_at default_sth k m) = k.
Proof.
  unfold tagged. induction m as [|[k' v'] m IH]; simpl; intros Hm; [by left|].
  destruct (Z.eqb_spec k k') as [->|].
  - apply Hm. by left.
  - apply IH. intros ???. apply Hm. by right.
Qed.

Lemma tally_invariant peers : ∀ sm nm sm' nm',
  tally peers (sm, nm) = Ok (sm', nm') →
  (∀ s, above s nm' = above s nm + coverage s peers)
  ∧ (StronglySorted key_lt nm → StronglySorted key_lt nm')
  ∧ (Forall (λ kv, 0 ≤ kv.1) nm → Forall (λ kv, 0 ≤ kv.1) nm')
  ∧ (tagged sm → tagged sm').
Proof.
  induction peers as [|p peers IH]; simpl; intros sm nm sm' nm' Htally.
  - simplify_eq. split; [intros; lia|done].
  - unfold tally_node, covers in *. destruct (newest_sth p) as [sth|] eqn:Hsth.
    + destruct (Z.leb_spec 0 (tree_size sth)); [|done].
      destruct (0 <=? to_int64 (timestamp sth)); [|done].
      apply IH in Htally as (Habove & Hsorted & Hkeys & Htag).
      split_and!.
      * intros s. rewrite Habove, above_upsert. lia.
      * intros. by apply Hsorted, upsert_sorted.
      * intros. by apply Hkeys, upsert_keys_nonneg.
      * intros. by apply Htag, upsert_tagged.
    + apply IH in Htally as (Habove & Hsorted & Hkeys & Htag).
      split_and!; [|done..]. intros s. rewrite Habove. lia.
Qed.

Lemma scan_buckets_selects config actual sm N cur buckets : ∀ seen candidate,
  scan_buckets config actual sm N cur buckets seen = Some candidate →
  ∃ pre s n post,
    buckets = pre ++ (s, n) :: post
    ∧ candidate = om_at default_sth s sm
    ∧ cur ≤ s
    ∧ double_ge (double_div (double_of_Z (seen + total pre + n)) (double_of_Z N))
                (minimum_serving_fraction config) = true
    ∧ minimum_serving_nodes config ≤ seen + total pre + n
    ∧ stale actual candidate = false.
Proof.
  induction buckets as [|[s n] rest IH]; simpl; intros seen candidate Hscan; [done|].
  destruct (Z.geb_spec s cur); [|done].
  destruct (double_ge _ _ && _) eqn:Hcov.
  - destruct (stale actual _) eqn:Hstale.
    + apply IH in Hscan as (pre & s' & n' & post & -> & -> & ? & Hf & Hn & ?).
      exists ((s, n) :: pre), s', n', post. simpl.
      replace (seen + (n + total pre) + n') with (seen + n + total pre + n') by lia.
      done.
    + simplify_eq. apply andb_true_iff in Hcov as [Hf Hn].
      exists [], s, n, rest. simpl. rewrite Z.add_0_r.
      apply Z.geb_le in Hn. split_and!; try done; lia.
  - apply IH in Hscan as (pre & s' & n' & post & -> & -> & ? & Hf & Hn & ?).
    exists ((s, n) :: pre), s', n', post. simpl.
    replace (seen + (n + total pre) + n') with (seen + n + total pre + n') by lia.
    done.
Qed.

Lemma above_at_bucket nm pre s n post :
  StronglySorted key_lt nm →
  rev nm = pre ++ (s, n) :: post →
  above s nm = total pre + n.
Proof.
  intros Hsorted Hrev.
  assert (Hnm : nm = rev post ++ (s, n) :: rev pre).
  { rewrite <- (rev_involutive nm), Hrev, rev_app_distr. simpl.
    by rewrite <- app_assoc. }
  subst nm. rewrite above_app. simpl.
  rewrite above_none, above_all, total_rev, Z.leb_refl; [lia|..].
  - apply StronglySorted_app_1_r, StronglySorted_cons in Hsorted as [Hall _].
    eapply Forall_impl; [exact Hall|]. by intros [??].
  - apply Forall_forall. intros x Hx.
    apply (StronglySorted_app_1_elem_of _ _ _ x (s, n) Hsorted); [done|by left].
Qed.


Lemma coverage_antitone s s' peers : s' ≤ s → coverage s peers ≤ coverage s' peers.
Proof.
  intros Hle. induction peers as [|p peers IH]; simpl; [done|].
  unfold covers. destruct (newest_sth p) as [sth|]; [|lia].
  destruct (Z.leb_spec s (tree_size sth)), (Z.leb_spec s' (tree_size sth)); lia.
Qed.

(** What a successful calculation has established about its candidate: it
    is the STH kept for a bucket [s] that reaches the thresholds. *)
Lemma calculate_selects peers config calculated actual candidate :
  calculate peers config calculated actual = Ok (Some candidate) →
  ∃ s, 0 ≤ s
    ∧ to_int (tree_size_or_0 calculated) ≤ s
    ∧ (candidate = default_sth ∨ tree_size candidate = s)
    ∧ minimum_serving_nodes config ≤ coverage s peers
    ∧ double_ge (double_div (double_of_Z (coverage s peers))
                            (double_of_Z (Z.of_nat (length peers))))
                (minimum_serving_fraction config) = true
    ∧ stale actual candidate = false.
Proof.
  unfold calculate. intros Hcalc.
  destruct (tally peers ([], [])) as [[sm nm]|] eqn:Htally; [|done].
  apply tally_invariant in Htally as (Habove & Hsorted & Hkeys & Htag).
  specialize (Hsorted (SSorted_nil _)). specialize (Hkeys (Forall_nil_2 _)).
  assert (Htagged : tagged sm) by (apply Htag; intros ?? Hin; inversion Hin).
  fold (tree_size_or_0 calculated) in Hcalc.
  destruct (0 <=? _); [|done]. simplify_eq.
  apply scan_buckets_selects in Hcalc
    as (pre & s & n & post & Hrev & -> & Hcur & Hfrac & Hnodes & Hstale).
  assert (Hseen : coverage s peers = total pre + n).
  { rewrite <- (above_at_bucket nm pre s n post Hsorted Hrev), Habove. simpl. lia. }
  exists s. rewrite Hseen. simpl in *. split_and!; try done.
  - rewrite Forall_forall in Hkeys. apply (Hkeys (s, n)).
    apply list_elem_of_In, in_rev. rewrite Hrev.
    apply in_or_app. right. by left.
  - by apply om_at_tagged.
Qed.

End Calculator.

(** ** Properties of the calculator *)

Example half_is_one_half : double_div (double_of_Z 1) (double_of_Z 2) = half.
Proof. reflexivity. Qed.

Example three_quarters_is_3_4 :
  double_div (double_of_Z 3) (double_of_Z 4) = three_quarters.
Proof. reflexivity. Qed.

Example basic_quorum_selected :
  calculate basic_quorum (mkConfig 3 three_quarters) None None
  = Ok (Some (example_sth 102 10)).
Proof. reflexivity. Qed.

Example d0_28_is_nearest : double_div (double_of_Z 28) (double_of_Z 100) = d0_28.
Proof. reflexivity. Qed.

(** C1, as stated, fails: with 25 peers of which seven are at size 10, and
    the configuration (7, 0.28), the calculator selects size 10, since the
    quotient 7/25 rounds to the double 0.28; that double is above 7/25, so
    seven peers are fewer than [minimum_serving_fraction] times 25, and the
    product taken in double arithmetic is above 7 as well. *)
Lemma C1_quotient_rounds_up :
  ¬ coverage_respected seven_of_25 (mkConfig 7 d0_28) None None
  ∧ calculate seven_of_25 (mkConfig 7 d0_28) None None = Ok (Some (example_sth 1 10))
  ∧ coverage 10 seven_of_25 = 7
  ∧ double_ge (double_of_Z 7) (double_mul d0_28 (double_of_Z 25)) = false.
Proof.
  split_and!; try by vm_compute.
  intros Hclaim. destruct (Hclaim (example_sth 1 10)) as [_ Hle]; [by vm_compute|].
  apply Qle_bool_iff in Hle. by vm_compute in Hle.
Qed.

(** C1, amended: when the calculator selects a candidate, it is the STH kept
    for a bucket of size [s] such that the number of peers whose newest STH
    is at least of size [s] is at least [minimum_serving_nodes], and the
    double quotient of that number by the number of peers is at least
    [minimum_serving_fraction].  The candidate has tree size [s], unless it
    is the default STH; either way at least as many peers are at or above
    the candidate's tree size.  ([int] counters: fewer than 2^31 peers.) *)
Theorem C1_coverage_of_selected_bucket
    (peers : list ClusterNodeState) (config : ClusterConfig)
    (calculated actual : option SignedTreeHead) (candidate : SignedTreeHead) :
  Z.of_nat (length peers) ≤ INT_MAX →
  calculate peers config calculated actual = Ok (Some candidate) →
  ∃ s,
    (tree_size candidate = s ∨ candidate = default_sth)
    ∧ minimum_serving_nodes config ≤ coverage s peers
    ∧ double_ge (double_div (double_of_Z (coverage s peers))
                            (double_of_Z (Z.of_nat (length peers))))
                (minimum_serving_fraction config) = true
    ∧ coverage s peers ≤ coverage (tree_size candidate) peers.
Proof.
  intros _ Hcalc.
  apply calculate_selects in Hcalc as (s & Hs & _ & Hcand & Hnodes & Hfrac & _).
  exists s. split_and!; try done.
  - destruct Hcand; auto.
  - apply coverage_antitone. destruct Hcand as [-> | ->]; simpl; lia.
Qed.

(** Scenario S1. *)
Lemma C1_coverage_of_selected_bucket_witness :
  ∃ s,
    (tree_size (example_sth 102 10) = s ∨ example_sth 102 10 = default_sth)
    ∧ 3 ≤ coverage s basic_quorum
    ∧ double_ge (double_div (double_of_Z (coverage s basic_quorum)) (double_of_Z 4))
                three_quarters = true
    ∧ coverage s basic_quorum ≤ coverage 10 basic_quorum.
Proof.
  apply (C1_coverage_of_selected_bucket basic_quorum (mkConfig 3 three_quarters)
           None None (example_sth 102 10)).
  - unfold INT_MAX. simpl. lia.
  - reflexivity.
Defined.

Example node_leaves_run :
  calculator_run node_leaves None
  = [ {| at_actual := Some (example_sth 50 3); previous := None;
         replaced_by := example_sth 100 5 |};
      {| at_actual := Some (example_sth 50 3); previous := Some (example_sth 100 5);
         replaced_by := example_sth 60 5 |} ].
Proof. reflexivity. Qed.

(** C3, as stated, fails: two peers hold STHs of size 5 with timestamps 100
    and 60, the actual serving STH has timestamp 50; the calculator selects
    the STH of timestamp 100; when that peer leaves it selects the STH of
    timestamp 60, newer than the actual one and older than the one it
    replaces. *)
Lemma C3_older_than_previous : ¬ timestamps_increase node_leaves None.
Proof.
  unfold timestamps_increase. rewrite node_leaves_run. intros Hall.
  apply Forall_cons in Hall as [_ Hall]. apply Forall_cons in Hall as [Hlt _].
  specialize (Hlt (ltac:(by eexists)) _ eq_refl). simpl in Hlt. lia.
Qed.

(** C3, amended: over any sequence of calculator invocations, whenever the
    actual serving STH is set and the calculator replaces the calculated
    serving STH, the new value's timestamp is strictly greater than the
    timestamp of the actual serving STH. *)
Theorem C3_newer_than_actual (inputs : list CalculatorInput)
    (calculated : option SignedTreeHead) :
  Forall (λ r, ∀ actual, at_actual r = Some actual →
                         timestamp actual < timestamp (replaced_by r))
         (calculator_run inputs calculated).
Proof.
  revert calculated. induction inputs as [|i inputs IH]; intros calculated; simpl.
  - constructor.
  - destruct (calculate _ _ _ _) as [[new|]|] eqn:Hcalc; [|apply IH|constructor].
    constructor; [|apply IH]. simpl. intros actual Hactual.
    apply calculate_selects in Hcalc as (s & _ & _ & _ & _ & _ & Hstale).
    rewrite Hactual in Hstale. simpl in Hstale. lia.
Qed.

(** Where the tree size cannot go down: a candidate other than the default
    STH is at least as large as a calculated STH whose size fits an [int]. *)
Lemma tree_size_floor_in_range peers config previous actual candidate :
  calculate peers config (Some previous) actual = Ok (Some candidate) →
  0 ≤ tree_size previous ≤ INT_MAX →
  candidate ≠ default_sth →
  tree_size previous ≤ tree_size candidate.
Proof.
  intros Hcalc Hrange Hcand.
  apply calculate_selects in Hcalc as (s & _ & Hcur & [?|Hsize] & _); [done|].
  simpl in Hcur. unfold to_int, wrap_signed, INT_MAX in *.
  rewrite Z.mod_small in Hcur by lia. lia.
Qed.

(** C6: the code misses it.  After a calculated STH of size 5, a bucket of
    size 7 whose STHs all have timestamp 0 is served by the default STH that
    [sth_by_size[7]] was initialised with: the new calculated STH has tree
    size 0.  After a calculated STH of size 2^32, [current_tree_size] is 0
    and a bucket of size 1 is selected. *)
Theorem C6_tree_size_regresses :
  calculator_run zero_timestamp_bucket None
  = [ {| at_actual := None; previous := None; replaced_by := example_sth 100 5 |};
      {| at_actual := None; previous := Some (example_sth 100 5);
         replaced_by := default_sth |} ]
  ∧ calculator_run size_beyond_int None
    = [ {| at_actual := None; previous := None;
           replaced_by := example_sth 100 (2 ^ 32) |};
        {| at_actual := None; previous := Some (example_sth 100 (2 ^ 32));
           replaced_by := example_sth 101 1 |} ].
Proof. split; reflexivity. Qed.

(** ** Properties of the controller *)

Section Properties.
Context {DB EL ST : Type}.
Context `{!Database DB, !MasterElection EL, !ConsistentStore ST}.
Implicit Types c : Controller DB EL ST.
Implicit Types op : Op DB EL ST.

Lemma step_newest_sth op c c' :
  exec (run_op op) c = Ok c' →
  (∀ sth, op ≠ OpNewTreeHead sth) →
  newest_sth (local_node_state_ c') = newest_sth (local_node_state_ c).
Proof.
  intros Hstep Hop. destruct op; try (by exfalso; eapply Hop);
    monad_unfold; destruct c; cases; congruence.
Qed.

Lemma NewTreeHead_result (sth : SignedTreeHead) c :
  match exec (NewTreeHead sth) c with
  | Ok c' =>
      newest_sth (local_node_state_ c') = Some sth
      ∧ ∀ old, newest_sth (local_node_state_ c) = Some old →
               timestamp old ≤ timestamp sth
  | Fatal =>
      ∃ old, newest_sth (local_node_state_ c) = Some old
             ∧ timestamp sth < timestamp old
  end.
Proof.
  monad_unfold; destruct c; cases; try (split; [reflexivity|]);
    intros; simplify_eq; try lia; eauto with lia.
Qed.

Lemma step_calculated_kept op c c' :
  exec (run_op op) c = Ok c' →
  is_Some (calculated_serving_sth_ c) → is_Some (calculated_serving_sth_ c').
Proof.
  intros Hstep Hsome. destruct op; monad_unfold; destruct c; cases; eauto.
Qed.

Lemma step_update_required op c c' :
  exec (run_op op) c = Ok c' →
  (update_required_ c = true → is_Some (calculated_serving_sth_ c)) →
  update_required_ c' = true → is_Some (calculated_serving_sth_ c').
Proof.
  intros Hstep Hinv. destruct op; monad_unfold; destruct c; cases; eauto; done.
Qed.

Lemma reachable_update_required c :
  reachable c → update_required_ c = true → is_Some (calculated_serving_sth_ c).
Proof.
  induction 1 as [database store election|op c c' _ IH Hstep]; [done|].
  by eapply step_update_required.
Qed.

Lemma run_reachable (ops : list (Op DB EL ST)) : ∀ c c',
  reachable c → run ops c = Ok c' → reachable c'.
Proof.
  induction ops as [|op ops IH]; simpl; intros c c' Hreach Hrun.
  - by simplify_eq.
  - destruct (exec (run_op op) c) as [c1|] eqn:Hstep; [|done].
    eapply IH; [|done]. by eapply reachable_step.
Qed.

(** A deletion of the serving STH resets [actual_serving_sth_] and calls
    nothing: the election is as it was. *)
Lemma OnServingSthUpdated_deletion (update : Update SignedTreeHead) c :
  exists_ update = false →
  exec (OnServingSthUpdated update) c = Ok (with_actual_serving_sth None c).
Proof. intros Hex. unfold OnServingSthUpdated. by rewrite Hex. Qed.

(** C7: a serving-STH update that exists and has timestamp 0 returns at
    once: the controller, its collaborators and the log of calls are as
    before (no call to the database or the election was made). *)
Theorem C7_zero_timestamp_update_ignored (update : Update SignedTreeHead) c :
  exists_ update = true →
  timestamp (Entry update) = 0 →
  OnServingSthUpdated update c = Ok (tt, c).
Proof.
  intros Hex Hts. unfold OnServingSthUpdated. rewrite Hex, Hts. reflexivity.
Qed.

(** C8: [NewTreeHead] is fatal when the STH's timestamp is below that of the
    newest STH present; otherwise it stores the STH; no other operation
    changes [newest_sth]; so across every operation the newest STH stays
    present and its timestamp does not decrease. *)
Theorem C8_newest_sth_timestamp_monotone c :
  (∀ sth old,
     newest_sth (local_node_state_ c) = Some old →
     timestamp sth < timestamp old →
     exec (NewTreeHead sth) c = Fatal)
  ∧ (∀ sth,
       (∀ old, newest_sth (local_node_state_ c) = Some old →
               timestamp old ≤ timestamp sth) →
       ∃ c', exec (NewTreeHead sth) c = Ok c'
             ∧ newest_sth (local_node_state_ c') = Some sth)
  ∧ (∀ op c',
       exec (run_op op) c = Ok c' →
       (∀ sth, op ≠ OpNewTreeHead sth) →
       newest_sth (local_node_state_ c') = newest_sth (local_node_state_ c))
  ∧ (∀ op c' old,
       exec (run_op op) c = Ok c' →
       newest_sth (local_node_state_ c) = Some old →
       ∃ new, newest_sth (local_node_state_ c') = Some new
              ∧ timestamp old ≤ timestamp new).
Proof.
  split_and!.
  - intros sth old Hold Hlt. pose proof (NewTreeHead_result sth c) as Hres.
    destruct (exec (NewTreeHead sth) c); [|done].
    destruct Hres as [_ Hle]. specialize (Hle _ Hold). lia.
  - intros sth Hle. pose proof (NewTreeHead_result sth c) as Hres.
    destruct (exec (NewTreeHead sth) c) as [c'|].
    + exists c'. by destruct Hres.
    + destruct Hres as (old & Hold & Hlt). specialize (Hle _ Hold). lia.
  - intros op c'. apply step_newest_sth.
  - intros op c' old Hstep Hold.
    assert (Hop : (∃ sth, op = OpNewTreeHead sth) ∨ ∀ sth, op ≠ OpNewTreeHead sth)
      by (destruct op; eauto).
    destruct Hop as [[sth ->]|Hother].
    + pose proof (NewTreeHead_result sth c) as Hres. simpl in Hstep.
      rewrite Hstep in Hres. destruct Hres as [Hnew Hle]. eauto.
    + exists old. split; [|lia]. rewrite <- Hold. by apply (step_newest_sth op).
Qed.

(** C10: in every reachable state, [update_required_] implies that
    [calculated_serving_sth_] is present, so the publisher thread's check of
    it does not fire; and no operation clears [calculated_serving_sth_]. *)
Theorem C10_update_required_has_calculated c :
  reachable c →
  (update_required_ c = true → is_Some (calculated_serving_sth_ c))
  ∧ exec ClusterServingSTHUpdater_locked c ≠ Fatal
  ∧ (∀ op c', exec (run_op op) c = Ok c' →
              is_Some (calculated_serving_sth_ c) →
              is_Some (calculated_serving_sth_ c')).
Proof.
  intros Hreach. pose proof (reachable_update_required c Hreach) as Hinv.
  split_and!; [done| |intros op c'; apply step_calculated_kept].
  monad_unfold. destruct c; simpl in *.
  destruct updater_thread_0; try done.
  destruct update_required_0, exiting_0; simpl; try done.
  destruct Hinv as [sth ->]; done.
Qed.

(** C5: woken with [update_required_] set and [exiting_] unset, the publisher
    is fatal without a calculated STH; otherwise it takes a copy of it and
    clears [update_required_], calling nothing; then, whatever the state has
    become, it asks [IsMaster()] and calls [SetServingSTH] with that copy
    exactly when the answer is true, and makes no store call otherwise. *)
Theorem C5_publisher_step c :
  updater_thread_ c = Waiting →
  update_required_ c = true →
  exiting_ c = false →
  match calculated_serving_sth_ c with
  | None => exec ClusterServingSTHUpdater_locked c = Fatal
  | Some snapshot =>
      exec ClusterServingSTHUpdater_locked c
      = Ok (with_updater_thread (Sending snapshot) (with_update_required false c))
      ∧ ∀ c2, updater_thread_ c2 = Sending snapshot →
          exec ClusterServingSTHUpdater_unlocked c2
          = Ok (with_updater_thread Waiting
                  (if IsMaster (election_ c2) then
                     with_store (SetServingSTH snapshot (store_ c2))
                       (with_calls (calls c2 ++ [CallIsMaster]
                                             ++ [CallSetServingSTH snapshot]) c2)
                   else with_calls (calls c2 ++ [CallIsMaster]) c2))
  end.
Proof.
  intros Hthread Hreq Hexit.
  destruct (calculated_serving_sth_ c) as [snapshot|] eqn:Hcalc.
  - split.
    + monad_unfold. rewrite Hthread, Hreq, Hexit, Hcalc. reflexivity.
    + intros c2 Hsending. monad_unfold. rewrite Hsending. simpl.
      destruct (IsMaster (election_ c2)); simpl; [|reflexivity].
      by rewrite <- app_assoc.
  - monad_unfold. rewrite Hthread, Hreq, Hexit, Hcalc. reflexivity.
Qed.

(** C4: a serving-STH update that exists, with a timestamp other than 0.
    Database lookup found, equal timestamps: fatal unless tree size and root
    hash are equal too, and nothing is written.  Found, different
    timestamps: fatal unless the update is newer and not smaller, and then
    the update is written.  Not found: the update is written.  (A write that
    does not return OK is fatal, as is a lookup error.)  In each case the
    update goes through when the log identity agrees, the condition holds
    and the write, if any, returns OK. *)
Theorem C4_serving_sth_reconciled (update : Update SignedTreeHead) c :
  exists_ update = true →
  timestamp (Entry update) ≠ 0 →
  let new := Entry update in
  let result := exec (OnServingSthUpdated update) c in
  let same_log db_sth := key_id new = key_id db_sth ∧ version new = version db_sth in
  let write_ok := (WriteTreeHead new (database_ c)).1 = OK in
  let not_written c' :=
    actual_serving_sth_ c' = Some new
    ∧ database_ c' = database_ c
    ∧ ∃ tail, calls c' = calls c ++ [CallLatestTreeHead] ++ tail
              ∧ Forall participation_call tail in
  let written c' :=
    actual_serving_sth_ c' = Some new
    ∧ WriteTreeHead new (database_ c) = (OK, database_ c')
    ∧ ∃ tail, calls c' = calls c ++ [CallLatestTreeHead; CallWriteTreeHead new] ++ tail
              ∧ Forall participation_call tail in
  match LatestTreeHead (database_ c) with
  | LOOKUP_OK db_sth =>
      if decide (timestamp db_sth = timestamp new) then
        (¬ (tree_size new = tree_size db_sth
            ∧ sha256_root_hash new = sha256_root_hash db_sth) → result = Fatal)
        ∧ (∀ c', result = Ok c' → not_written c')
        ∧ (same_log db_sth → tree_size new = tree_size db_sth →
           sha256_root_hash new = sha256_root_hash db_sth →
           ∃ c', result = Ok c')
      else
        (¬ (timestamp db_sth < timestamp new ∧ tree_size db_sth ≤ tree_size new) →
         result = Fatal)
        ∧ (∀ c', result = Ok c' → written c')
        ∧ (same_log db_sth → timestamp db_sth < timestamp new →
           tree_size db_sth ≤ tree_size new → write_ok →
           ∃ c', result = Ok c')
  | NOT_FOUND =>
      (∀ c', result = Ok c' → written c') ∧ (write_ok → ∃ c', result = Ok c')
  | LOOKUP_FAILED => result = Fatal
  end.
Proof.
  intros Hex Hts. simpl.
  apply Z.eqb_neq in Hts.
  unfold OnServingSthUpdated. rewrite Hex, Hts. simpl.
  destruct (LatestTreeHead (database_ c)) as [db_sth| |] eqn:Hlookup.
  - destruct (decide (timestamp db_sth = timestamp (Entry update))) as [Heq|Hne].
    + apply Z.eqb_eq in Heq. split_and!.
      * intros Hdiff. monad_unfold. simpl. rewrite Hlookup. simpl.
        repeat (case_bool_decide || case_match); simpl; try done;
          exfalso; apply Hdiff; split; try done; lia.
      * intros c' Hres. monad_unfold. simpl in *. rewrite Hlookup in Hres. simpl in Hres.
        rewrite Heq in Hres.
        destruct c; cases; split_and!; try done; participation_calls.
      * intros [Hkey Hver] Hsize Hhash. monad_unfold. simpl. rewrite Hlookup. simpl.
        rewrite Heq, Hver, Hsize, Z.eqb_refl, Z.eqb_refl.
        rewrite !bool_decide_eq_true_2 by done. simpl.
        destruct c; cases; eauto.
    + apply Z.eqb_neq in Hne. split_and!.
      * intros Hdiff. monad_unfold. simpl. rewrite Hlookup. simpl.
        rewrite Hne.
        repeat (case_bool_decide || case_match); simpl; try done;
          exfalso; apply Hdiff; split; lia.
      * intros c' Hres. monad_unfold. simpl in *. rewrite Hlookup in Hres. simpl in Hres.
        rewrite Hne in Hres.
        destruct c; cases; split_and!; try done; participation_calls.
      * intros [Hkey Hver] Hnewer Hsize Hwrite. monad_unfold. simpl.
        rewrite Hlookup. simpl. rewrite Hne, Hver, Z.eqb_refl.
        rewrite !bool_decide_eq_true_2 by done. simpl.
        destruct (Z.gtb_spec (timestamp (Entry update)) (timestamp db_sth)); [|lia].
        destruct (Z.geb_spec (tree_size (Entry update)) (tree_size db_sth)); [|lia].
        simpl. destruct (WriteTreeHead _ _) as [r db]. simpl in Hwrite. subst r.
        destruct c; cases; eauto.
  - split.
    + intros c' Hres. monad_unfold. simpl in *. rewrite Hlookup in Hres. simpl in Hres.
      destruct c; cases; split_and!; try done; participation_calls.
    + intros Hwrite. monad_unfold. simpl. rewrite Hlookup. simpl.
      destruct (WriteTreeHead _ _) as [r db]. simpl in Hwrite. subst r.
      destruct c; cases; eauto.
  - monad_unfold. simpl. by rewrite Hlookup.
Qed.

End Properties.

(** ** The properties at work *)

Lemma C7_zero_timestamp_update_ignored_witness :
  OnServingSthUpdated (mkUpdate "serving_sth" true (example_sth 0 7)) fresh
  = Ok (tt, fresh).
Proof.
  apply (C7_zero_timestamp_update_ignored
           (mkUpdate "serving_sth" true (example_sth 0 7)) fresh); reflexivity.
Defined.

Example first_peer_joins_run :
  run first_peer_joins fresh_master = Ok (after first_peer_joins fresh_master)
  ∧ update_required_ (after first_peer_joins fresh_master) = true
  ∧ calculated_serving_sth_ (after first_peer_joins fresh_master)
    = Some (example_sth 100 5).
Proof. by vm_compute. Qed.

Lemma C10_update_required_has_calculated_witness :
  (update_required_ (after first_peer_joins fresh_master) = true →
   is_Some (calculated_serving_sth_ (after first_peer_joins fresh_master)))
  ∧ exec ClusterServingSTHUpdater_locked (after first_peer_joins fresh_master) ≠ Fatal
  ∧ (∀ op c', exec (run_op op) (after first_peer_joins fresh_master) = Ok c' →
              is_Some (calculated_serving_sth_ (after first_peer_joins fresh_master)) →
              is_Some (calculated_serving_sth_ c')).
Proof.
  apply (C10_update_required_has_calculated (after first_peer_joins fresh_master)).
  apply (run_reachable first_peer_joins fresh_master).
  - apply reachable_new.
  - vm_compute. reflexivity.
Defined.

Lemma C5_publisher_step_witness :
  exec ClusterServingSTHUpdater_locked master_with_candidate
  = Ok (with_updater_thread (Sending (example_sth 102 10))
          (with_update_required false master_with_candidate))
  ∧ ∀ c2 : MemController, updater_thread_ c2 = Sending (example_sth 102 10) →
      exec ClusterServingSTHUpdater_unlocked c2
      = Ok (with_updater_thread Waiting
              (if IsMaster (election_ c2) then
                 with_store (SetServingSTH (example_sth 102 10) (store_ c2))
                   (with_calls (calls c2 ++ [CallIsMaster]
                                         ++ [CallSetServingSTH (example_sth 102 10)]) c2)
               else with_calls (calls c2 ++ [CallIsMaster]) c2)).
Proof.
  apply (C5_publisher_step master_with_candidate); reflexivity.
Defined.

(** Scenario S4: the database holds (100, 5), the watch delivers (150, 7). *)
Lemma C4_serving_sth_reconciled_witness :
  ∃ c', exec (OnServingSthUpdated (mkUpdate "serving_sth" true (example_sth 150 7)))
             with_stored_sth = Ok c'.
Proof.
  refine (proj2 (proj2 (C4_serving_sth_reconciled
                          (mkUpdate "serving_sth" true (example_sth 150 7))
                          with_stored_sth _ _)) _ _ _ _).
  - reflexivity.
  - simpl. lia.
  - split; reflexivity.
  - simpl. lia.
  - simpl. lia.
  - reflexivity.
Defined.

(** C2: the code misses it.  The serving STH (200, 100) appears, the node
    reports the tree head (201, 100) and joins the election; the serving
    STH is then deleted: [DetermineElectionParticipation] returns without
    [StopElection], and the election is left running with no actual
    serving STH. *)
Theorem C2_election_left_running :
  ∃ c', run serving_sth_deleted fresh = Ok c'
        ∧ actual_serving_sth_ c' = None
        ∧ newest_sth (local_node_state_ c') = Some (example_sth 201 100)
        ∧ running (election_ c') = true
        ∧ calls c'
          = [ CallLatestTreeHead;
              CallWriteTreeHead (example_sth 200 100);
              CallStopElection;
              CallStartElection;
              CallSetClusterNodeState
                (mkNodeState "" "" 0 (Some (example_sth 201 100))) ].
Proof. eexists. split; [by vm_compute|]. by vm_compute. Qed.

(** ** The peer registry *)

Lemma one_entry_per_key (m : gmap string ClusterPeer) (k : string) (p : ClusterPeer) :
  m !! k = Some p →
  filter (λ kv, kv.1 = k) (map_to_list m) = [(k, p)].
Proof.
  intros Hlookup.
  pose proof (NoDup_fst_map_to_list m) as Hnodup.
  apply elem_of_map_to_list in Hlookup.
  induction (map_to_list m) as [|[k' p'] l IH]; [by apply elem_of_nil in Hlookup|].
  simpl in Hnodup. apply NoDup_cons in Hnodup as [Hfresh Hnodup].
  apply elem_of_cons in Hlookup as [Hhead|Htail].
  - injection Hhead as <- <-. rewrite filter_cons_True by done. f_equal.
    apply elem_of_nil_inv. intros [k2 p2] Hin.
    apply list_elem_of_filter in Hin as [Hk Hin]. simpl in Hk. subst k2.
    apply Hfresh. apply list_elem_of_fmap. by exists (k, p2).
  - rewrite filter_cons_False; [by apply IH|].
    simpl. intros ->. apply Hfresh. apply list_elem_of_fmap. by exists (k, p).
Qed.

(** C9: an update that exists, for a node whose peer is at another
    (hostname, port): the peer is erased and a new one constructed from the
    update's entry, with a log client for the update's endpoint; afterwards
    the registry has exactly one entry for the node, holding the update's
    entry, and the other nodes' peers are as before.  The update is applied
    when its endpoint is one [BuildAsyncLogClient] accepts (a non-empty
    hostname and a port in 1..65535, as every node state has); the process
    aborts on any other. *)
Theorem C9_endpoint_change_rebuilds_peer (update : Update ClusterNodeState)
    (all_peers : gmap string ClusterPeer) (p : ClusterPeer) :
  exists_ update = true →
  all_peers !! Key update = Some p →
  GetHostPort p ≠ (hostname (Entry update), log_port (Entry update)) →
  let rebuilt :=
    {| client := "http://" +:+ hostname (Entry update) +:+ ":"
                 +:+ pretty (log_port (Entry update));
       state_ := Entry update |} in
  (valid_endpoint (Entry update) →
   apply_update update all_peers
   = Ok (<[Key update := rebuilt]> (delete (Key update) all_peers)))
  ∧ (¬ valid_endpoint (Entry update) → apply_update update all_peers = Fatal)
  ∧ ∀ all_peers',
      apply_update update all_peers = Ok all_peers' →
      all_peers' !! Key update = Some rebuilt
      ∧ filter (λ kv, kv.1 = Key update) (map_to_list all_peers')
        = [(Key update, rebuilt)]
      ∧ ∀ k, k ≠ Key update → all_peers' !! k = all_peers !! k.
Proof.
  intros Hex Hlookup Hmoved rebuilt.
  assert (Happly : apply_update update all_peers
                   = if decide (valid_endpoint (Entry update))
                     then Ok (<[Key update := rebuilt]> (delete (Key update) all_peers))
                     else Fatal).
  { unfold apply_update. rewrite Hex, Hlookup.
    rewrite bool_decide_eq_true_2 by done.
    unfold new_ClusterPeer, BuildAsyncLogClient, valid_endpoint.
    case_bool_decide as Hhost.
    { rewrite decide_False; [done|]. by intros [? _]. }
    destruct (Z.gtb_spec (log_port (Entry update)) 0); simpl;
      [|rewrite decide_False; [done|lia]].
    destruct (Z.leb_spec (log_port (Entry update)) UINT16_MAX); simpl;
      [|rewrite decide_False; [done|lia]].
    rewrite decide_True by (split; [done|lia]).
    unfold emplace. by rewrite lookup_delete_eq. }
  split_and!.
  - intros Hvalid. by rewrite Happly, decide_True.
  - intros Hinvalid. by rewrite Happly, decide_False.
  - intros all_peers' Hres. rewrite Happly in Hres. case_decide; [|done].
    simplify_eq.
    assert (Hnew : <[Key update := rebuilt]> (delete (Key update) all_peers)
                   !! Key update = Some rebuilt) by apply lookup_insert_eq.
    split_and!; [done|by apply one_entry_per_key|].
    intros k Hk. rewrite lookup_insert_ne, lookup_delete_ne; done.
Qed.

(** Scenario S3: node n1 moves from port 80 to port 81. *)
Lemma C9_endpoint_change_rebuilds_peer_witness :
  (valid_endpoint (Entry n1_to_81) →
   apply_update n1_to_81 n1_at_80
   = Ok (<["n1" := {| client := "http://h1:81"; state_ := Entry n1_to_81 |}]>
           (delete "n1" n1_at_80)))
  ∧ (¬ valid_endpoint (Entry n1_to_81) → apply_update n1_to_81 n1_at_80 = Fatal)
  ∧ ∀ all_peers',
      apply_update n1_to_81 n1_at_80 = Ok all_peers' →
      all_peers' !! "n1" = Some {| client := "http://h1:81"; state_ := Entry n1_to_81 |}
      ∧ filter (λ kv, kv.1 = "n1") (map_to_list all_peers')
        = [("n1", {| client := "http://h1:81"; state_ := Entry n1_to_81 |})]
      ∧ ∀ k, k ≠ "n1" → all_peers' !! k = n1_at_80 !! k.
Proof.
  apply (C9_endpoint_change_rebuilds_peer n1_to_81 n1_at_80
           {| client := "http://h1:80"; state_ := mkNodeState "n1" "h1" 80 None |}).
  - reflexivity.
  - reflexivity.
  - vm_compute. congruence.
Defined.

Example n1_to_81_applied :
  apply_update n1_to_81 n1_at_80
  = Ok {[ "n1" := {| client := "http://h1:81";
                     state_ := mkNodeState "n1" "h1" 81 None |} ]}.
Proof. by vm_compute. Qed.

(** ** Further properties of the calculator *)

Section Buckets.

Lemma om_at_below {V : Type} (d : V) k (m : omap V) :
  Forall (λ kv, k < kv.1) m → om_at d k m = d.
Proof.
  induction 1 as [|[k' v] m Hk _ IH]; simpl in *; [done|].
  destruct (Z.eqb_spec k k'); [lia|done].
Qed.

Lemma om_at_upsert {V : Type} (d : V) f k k' (m : omap V) :
  StronglySorted key_lt m →
  om_at d k' (om_upsert d f k m)
  = if k' =? k then f (om_at d k m) else om_at d k' m.
Proof.
  induction 1 as [|[k0 v] m Hm IH Hall]; simpl.
  - destruct (Z.eqb_spec k' k); done.
  - destruct (Z.ltb_spec k k0); simpl.
    + destruct (Z.eqb_spec k' k) as [->|]; [|done].
      destruct (Z.eqb_spec k k0); [lia|].
      rewrite om_at_below; [done|].
      eapply Forall_impl; [exact Hall|]. intros [??]; unfold key_lt; simpl; lia.
    + destruct (Z.eqb_spec k k0) as [->|]; simpl.
      * destruct (Z.eqb_spec k' k0); done.
      * rewrite IH. destruct (Z.eqb_spec k' k0), (Z.eqb_spec k' k);
          try done; lia.
Qed.

Lemma om_at_elem {V : Type} (d : V) k v (m : omap V) :
  StronglySorted key_lt m → (k, v) ∈ m → om_at d k m = v.
Proof.
  induction 1 as [|[k0 v0] m Hm IH Hall]; intros Hin; [by apply elem_of_nil in Hin|].
  simpl. apply elem_of_cons in Hin as [Heq|Hin].
  - simplify_eq. by rewrite Z.eqb_refl.
  - rewrite Forall_forall in Hall. specialize (Hall _ Hin). unfold key_lt in Hall.
    simpl in Hall. destruct (Z.eqb_spec k k0); [lia|]. by apply IH.
Qed.

Lemma om_at_elem_inv k (m : omap Z) :
  om_at 0 k m ≠ 0 → (k, om_at 0 k m) ∈ m.
Proof.
  induction m as [|[k0 v0] m IH]; simpl; [done|].
  destruct (Z.eqb_spec k k0) as [->|]; intros Hne; [by left|].
  right. by apply IH.
Qed.

Lemma upsert_positive k m :
  0 ≤ k → Forall (λ kv : Z * Z, 0 ≤ kv.1 ∧ 0 < kv.2) m →
  Forall (λ kv : Z * Z, 0 ≤ kv.1 ∧ 0 < kv.2) (om_upsert 0 Z.succ k m).
Proof.
  intros Hk. induction 1 as [|[k' n] m Hk' Hm IH]; simpl in *.
  - repeat constructor; simpl; lia.
  - destruct (k <? k'); [repeat constructor; simpl; try lia; done|].
    destruct (k =? k'); constructor; try done. simpl. lia.
Qed.

Lemma count_at_app s l1 l2 : count_at s (l1 ++ l2) = count_at s l1 + count_at s l2.
Proof. induction l1 as [|p l1 IH]; simpl; lia. Qed.

Lemma in_bucket_app s l1 l2 sth :
  in_bucket s (l1 ++ l2) sth ↔ in_bucket s l1 sth ∨ in_bucket s l2 sth.
Proof.
  unfold in_bucket. split.
  - intros (p & Hin & ?). apply elem_of_app in Hin as [?|?]; [left|right]; eauto.
  - intros [(p & Hin & ?)|(p & Hin & ?)]; exists p; (split; [|done]);
      apply elem_of_app; auto.
Qed.

Lemma tallied_nil : tallied [] ([], []).
Proof.
  unfold tallied; simpl. split_and!; [constructor..|done|].
  intros s. split_and!; [by left|done|].
  intros sth (p & Hin & _). by apply elem_of_nil in Hin.
Qed.

Lemma tallied_step processed p acc acc' :
  tallied processed acc →
  tally_node p acc = Ok acc' →
  tallied (processed ++ [p]) acc'.
Proof.
  destruct acc as [sm nm]. unfold tallied, tally_node. simpl.
  intros (Hsm & Hnm & Hpos & Hcount & Hkept) Hstep.
  destruct (newest_sth p) as [sth|] eqn:Hsth.
  - destruct (Z.leb_spec 0 (tree_size sth)); [|done].
    destruct (0 <=? to_int64 (timestamp sth)); [|done]. simplify_eq. simpl.
    split_and!.
    + by apply upsert_sorted.
    + by apply upsert_sorted.
    + by apply upsert_positive.
    + intros s. rewrite om_at_upsert, count_at_app, <- Hcount by done. simpl.
      rewrite Hsth. rewrite (Z.eqb_sym (tree_size sth) s).
      destruct (Z.eqb_spec s (tree_size sth)); subst; lia.
    + intros s. rewrite om_at_upsert by done.
      destruct (Hkept s) as (Hfrom & Hnonneg & Hmax).
      destruct (Z.eqb_spec s (tree_size sth)) as [->|Hne].
      * unfold newer_of. destruct (Z.gtb_spec (timestamp sth)
          (timestamp (om_at default_sth (tree_size sth) sm))) as [Hgt|Hle].
        -- split_and!; [|lia|].
           ++ right. split; [|lia]. exists p. split_and!; try done.
              apply elem_of_app. right. by left.
           ++ intros sth' Hin. apply in_bucket_app in Hin as [Hin|Hin].
              ** specialize (Hmax _ Hin). lia.
              ** destruct Hin as (p' & Hp' & Hsth' & _).
                 apply list_elem_of_singleton in Hp'. subst p'.
                 rewrite Hsth in Hsth'. simplify_eq. lia.
        -- split_and!; [|done|].
           ++ destruct Hfrom as [?|[Hin ?]]; [by left|right]. split; [|done].
              apply in_bucket_app. by left.
           ++ intros sth' Hin. apply in_bucket_app in Hin as [Hin|Hin]; [by apply Hmax|].
              destruct Hin as (p' & Hp' & Hsth' & _).
              apply list_elem_of_singleton in Hp'. subst p'.
              rewrite Hsth in Hsth'. by simplify_eq.
      * split_and!; [|done|].
        -- destruct Hfrom as [?|[Hin ?]]; [by left|right]. split; [|done].
           apply in_bucket_app. by left.
        -- intros sth' Hin. apply in_bucket_app in Hin as [Hin|Hin]; [by apply Hmax|].
           destruct Hin as (p' & Hp' & Hsth' & Hsize).
           apply list_elem_of_singleton in Hp'. subst p'.
           rewrite Hsth in Hsth'. by simplify_eq.
  - simplify_eq. simpl. split_and!; try done.
    + intros s. rewrite count_at_app, <- Hcount. simpl. rewrite Hsth. lia.
    + intros s. destruct (Hkept s) as (Hfrom & Hnonneg & Hmax). split_and!; [|done|].
      * destruct Hfrom as [?|[Hin ?]]; [by left|right]. split; [|done].
        apply in_bucket_app. by left.
      * intros sth' Hin. apply in_bucket_app in Hin as [Hin|Hin]; [by apply Hmax|].
        destruct Hin as (p' & Hp' & Hsth' & _).
        apply list_elem_of_singleton in Hp'. subst p'. congruence.
Qed.

Lemma tallied_run rest : ∀ processed acc acc',
  tallied processed acc →
  tally rest acc = Ok acc' →
  tallied (processed ++ rest) acc'.
Proof.
  induction rest as [|p rest IH]; simpl; intros processed acc acc' Hinv Hrun.
  - simplify_eq. by rewrite app_nil_r.
  - destruct (tally_node p acc) as [acc1|] eqn:Hstep; [|done].
    replace (processed ++ p :: rest) with ((processed ++ [p]) ++ rest)
      by (by rewrite <- app_assoc).
    eapply IH; [|done]. by eapply tallied_step.
Qed.

Lemma tally_fatal peers : ∀ acc,
  tally peers acc = Fatal ↔ Exists rejected peers.
Proof.
  induction peers as [|p peers IH]; intros acc; simpl.
  - split; [done|]. intros H. inversion H.
  - rewrite Exists_cons. destruct (tally_node p acc) as [acc1|] eqn:Hstep.
    + rewrite IH. split; [by right|]. intros [Hbad|?]; [|done]. exfalso.
      destruct Hbad as (sth & Hsth & Hbad). destruct acc as [sm nm].
      unfold tally_node in Hstep. rewrite Hsth in Hstep.
      destruct (Z.leb_spec 0 (tree_size sth)); [|done].
      destruct (Z.leb_spec 0 (to_int64 (timestamp sth))); [|done]. lia.
    + split; [|done]. intros _. left. destruct acc as [sm nm].
      unfold tally_node, rejected in *. destruct (newest_sth p) as [sth|]; [|done].
      exists sth. split; [done|].
      destruct (Z.leb_spec 0 (tree_size sth)); [|lia].
      destruct (Z.leb_spec 0 (to_int64 (timestamp sth))); [done|lia].
Qed.


Lemma scan_buckets_none config actual sm N cur buckets : ∀ seen,
  scan_buckets config actual sm N cur buckets seen = None →
  ∀ pre s n post,
    buckets = pre ++ (s, n) :: post →
    Forall (λ kv, cur ≤ kv.1) pre →
    cur ≤ s →
    enough config N (seen + total pre + n) = false
    ∨ stale actual (om_at default_sth s sm) = true.
Proof.
  unfold enough.
  induction buckets as [|[s0 n0] rest IH]; intros seen Hscan pre s n post Hsplit Hpre Hs.
  - by destruct pre.
  - simpl in Hscan. destruct pre as [|[s1 n1] pre]; simpl in Hsplit; simplify_eq.
    + simpl. rewrite Z.add_0_r.
      destruct (Z.geb_spec s cur); [|lia].
      destruct (_ && _); [|by left]. right. by destruct (stale actual _).
    + apply Forall_cons in Hpre as [Hs1 Hpre]. simpl in Hs1.
      destruct (Z.geb_spec s1 cur); [|lia]. simpl.
      replace (seen + (n1 + total pre) + n) with (seen + n1 + total pre + n) by lia.
      eapply IH; try done.
      destruct (_ && _); [|done]. by destruct (stale actual _).
Qed.

Lemma scan_buckets_first config actual sm N cur buckets : ∀ seen candidate,
  scan_buckets config actual sm N cur buckets seen = Some candidate →
  ∃ pre s n post,
    buckets = pre ++ (s, n) :: post
    ∧ candidate = om_at default_sth s sm
    ∧ cur ≤ s
    ∧ enough config N (seen + total pre + n) = true
    ∧ stale actual candidate = false
    ∧ ∀ pre1 s1 n1 pre2,
        pre = pre1 ++ (s1, n1) :: pre2 →
        enough config N (seen + total pre1 + n1) = false
        ∨ stale actual (om_at default_sth s1 sm) = true.
Proof.
  induction buckets as [|[s0 n0] rest IH]; simpl; intros seen candidate Hscan; [done|].
  destruct (Z.geb_spec s0 cur); [|done].
  fold (enough config N (seen + n0)) in Hscan.
  assert (Hcases : (enough config N (seen + n0) = true
                    ∧ stale actual (om_at default_sth s0 sm) = false)
                   ∨ (enough config N (seen + n0) = false
                      ∨ stale actual (om_at default_sth s0 sm) = true)).
  { destruct (enough _ _ _), (stale _ _); auto. }
  destruct Hcases as [[Hok Hfresh]|Hskipped].
  - rewrite Hok, Hfresh in Hscan. simplify_eq.
    exists [], s0, n0, rest. simpl. rewrite Z.add_0_r.
    split_and!; try done; try lia.
    intros pre1 s1 n1 pre2 Heq. by destruct pre1.
  - assert (Hrest : scan_buckets config actual sm N cur rest (seen + n0) = Some candidate).
    { destruct Hskipped as [Hlow|Hstale].
      - by rewrite Hlow in Hscan.
      - rewrite Hstale in Hscan. by destruct (enough _ _ _). }
    apply IH in Hrest as (pre & s & n & post & -> & -> & ? & Hok & ? & Hskip).
    exists ((s0, n0) :: pre), s, n, post. simpl.
    replace (seen + (n0 + total pre) + n) with (seen + n0 + total pre + n) by lia.
    split_and!; try done.
    intros pre1 s1 n1 pre2 Heq. destruct pre1 as [|[s2 n2] pre1]; simpl in Heq; simplify_eq.
    + simpl. by rewrite Z.add_0_r.
    + simpl. rewrite (Z.add_assoc seen). by eapply Hskip.
Qed.

Lemma calculate_tallied peers config calculated actual result :
  calculate peers config calculated actual = Ok result →
  ∃ sm nm,
    tally peers ([], []) = Ok (sm, nm)
    ∧ tallied peers (sm, nm)
    ∧ (∀ s, above s nm = coverage s peers)
    ∧ 0 ≤ to_int (tree_size_or_0 calculated)
    ∧ result = scan_buckets config actual sm (Z.of_nat (length peers))
                 (to_int (tree_size_or_0 calculated)) (rev nm) 0.
Proof.
  unfold calculate. intros Hcalc.
  destruct (tally peers ([], [])) as [[sm nm]|] eqn:Htally; [|done].
  exists sm, nm. fold (tree_size_or_0 calculated) in Hcalc.
  destruct (Z.leb_spec 0 (to_int (tree_size_or_0 calculated))); [|done].
  simplify_eq. split_and!; try done.
  - apply (tallied_run peers [] _ _ tallied_nil Htally).
  - intros s. apply tally_invariant in Htally as [Habove _]. rewrite Habove. simpl. lia.
Qed.

Lemma elem_of_rev {A : Type} (x : A) (l : list A) : x ∈ rev l ↔ x ∈ l.
Proof. rewrite !list_elem_of_In. symmetry. apply in_rev. Qed.

(** Position of a bucket in the reverse iteration. *)
Lemma bucket_position nm s :
  StronglySorted key_lt nm →
  om_at 0 s nm ≠ 0 →
  ∃ pre post,
    rev nm = pre ++ (s, om_at 0 s nm) :: post
    ∧ Forall (λ kv, s < kv.1) pre
    ∧ Forall (λ kv, kv.1 < s) post.
Proof.
  intros Hsorted Hin. apply om_at_elem_inv in Hin.
  generalize dependent (om_at 0 s nm). intros n Hin.
  apply list_elem_of_split in Hin as (l1 & l2 & ->).
  exists (rev l2), (rev l1). split_and!.
  - rewrite rev_app_distr. simpl. by rewrite <- app_assoc.
  - apply StronglySorted_app_1_r, StronglySorted_cons in Hsorted as [Hall _].
    apply Forall_forall. intros x Hx. rewrite elem_of_rev in Hx.
    rewrite Forall_forall in Hall. by apply (Hall x).
  - apply Forall_forall. intros x Hx. rewrite elem_of_rev in Hx.
    apply (StronglySorted_app_1_elem_of _ _ _ x (s, n) Hsorted); [done|by left].
Qed.

Lemma stale_outdated actual s peers sm nm :
  tallied peers (sm, nm) →
  stale actual (om_at default_sth s sm) = true →
  outdated actual s peers.
Proof.
  intros (_ & _ & _ & _ & Hkept) Hstale. destruct (Hkept s) as (_ & _ & Hmax).
  simpl in *. unfold stale in Hstale. destruct actual as [a|]; [|done].
  exists a. split; [done|]. intros sth Hin. specialize (Hmax _ Hin). lia.
Qed.

(** X6: what the first loop builds.  For every size [s],
    [num_nodes_by_sth_size[s]] is the number of peers whose newest STH has
    that tree size, and [sth_by_size[s]] is the default STH or the newest
    STH of such a peer, with no STH of that size having a larger
    timestamp. *)
Theorem first_loop_buckets (peers : list ClusterNodeState)
    (sth_by_size : omap SignedTreeHead) (num_nodes_by_sth_size : omap Z) (s : Z) :
  tally peers ([], []) = Ok (sth_by_size, num_nodes_by_sth_size) →
  om_at 0 s num_nodes_by_sth_size = count_at s peers
  ∧ (om_at default_sth s sth_by_size = default_sth
     ∨ in_bucket s peers (om_at default_sth s sth_by_size))
  ∧ ∀ sth, in_bucket s peers sth →
           timestamp sth ≤ timestamp (om_at default_sth s sth_by_size).
Proof.
  intros Htally.
  destruct (tallied_run peers [] _ _ tallied_nil Htally) as (_ & _ & _ & Hcount & Hkept).
  destruct (Hkept s) as (Hfrom & _ & Hmax). simpl in *.
  split_and!; [done| |done]. destruct Hfrom as [?|[? _]]; auto.
Qed.

(** X1: the calculation aborts exactly when some peer's newest STH has a
    negative tree size or a timestamp that is negative as an [int64_t], or
    when the calculated serving size is negative once narrowed to [int]. *)
Theorem calculate_fatal_iff (peers : list ClusterNodeState) (config : ClusterConfig)
    (calculated actual : option SignedTreeHead) :
  calculate peers config calculated actual = Fatal
  ↔ Exists rejected peers ∨ to_int (tree_size_or_0 calculated) < 0.
Proof.
  unfold calculate. fold (tree_size_or_0 calculated).
  destruct (tally peers ([], [])) as [[sm nm]|] eqn:Htally.
  - assert (Hgood : ¬ Exists rejected peers).
    { intros Hbad. apply (tally_fatal peers ([], [])) in Hbad. congruence. }
    destruct (Z.leb_spec 0 (to_int (tree_size_or_0 calculated))); split; try done.
    + intros [?|?]; [done|lia].
    + auto.
  - apply tally_fatal in Htally. split; auto.
Qed.

(** X2: when the calculation selects nothing, every size [s] that some peer
    is at, and that is not below the current size, either misses a
    threshold on the number of peers at or above [s], or has only STHs no
    newer than the actual serving STH. *)
Theorem no_candidate_means_no_bucket_serves (peers : list ClusterNodeState)
    (config : ClusterConfig) (calculated actual : option SignedTreeHead) :
  calculate peers config calculated actual = Ok None →
  ∀ s, 0 < count_at s peers →
       to_int (tree_size_or_0 calculated) ≤ s →
       enough config (Z.of_nat (length peers)) (coverage s peers) = false
       ∨ outdated actual s peers.
Proof.
  intros Hcalc s Hcount Hcur.
  apply calculate_tallied in Hcalc as (sm & nm & _ & Hinv & Habove & _ & Hscan).
  pose proof Hinv as (_ & Hsorted & _ & Hcounts & _). simpl in *.
  destruct (bucket_position nm s Hsorted) as (pre & post & Hrev & Hpre & _).
  { rewrite Hcounts. lia. }
  symmetry in Hscan.
  destruct (scan_buckets_none _ _ _ _ _ _ _ Hscan _ _ _ _ Hrev) as [Hlow|Hstale].
  - eapply Forall_impl; [exact Hpre|]. simpl. intros; lia.
  - done.
  - left. by rewrite <- Habove, (above_at_bucket nm pre s _ post Hsorted Hrev).
  - right. by eapply stale_outdated.
Qed.


(** X4: while no peer has announced an STH (an empty registry included),
    the calculation selects nothing, whatever the configuration (the
    calculated serving size being non-negative as an [int]; it aborts
    otherwise). *)
Theorem no_sth_no_candidate (peers : list ClusterNodeState) (config : ClusterConfig)
    (calculated actual : option SignedTreeHead) :
  Forall (λ node_state, newest_sth node_state = None) peers →
  0 ≤ to_int (tree_size_or_0 calculated) →
  calculate peers config calculated actual = Ok None.
Proof.
  intros Hnone Hcur. unfold calculate. fold (tree_size_or_0 calculated).
  assert (Htally : ∀ acc, tally peers acc = Ok acc).
  { induction Hnone as [|p peers Hp _ IH]; intros [sm nm]; simpl; [done|].
    rewrite Hp. apply IH. }
  rewrite Htally. simpl. by destruct (Z.leb_spec 0 (to_int (tree_size_or_0 calculated))); [|lia].
Qed.


Lemma count_at_perm s peers peers' :
  peers ≡ₚ peers' → count_at s peers = count_at s peers'.
Proof. induction 1; simpl; lia. Qed.

Lemma in_bucket_perm s peers peers' sth :
  peers ≡ₚ peers' → in_bucket s peers sth → in_bucket s peers' sth.
Proof.
  intros Hperm (p & Hin & ?). exists p. split; [|done]. by rewrite <- Hperm.
Qed.

Lemma counts_determine_buckets (m1 : omap Z) : ∀ m2 : omap Z,
  StronglySorted key_lt m1 → StronglySorted key_lt m2 →
  Forall (λ kv, 0 ≤ kv.1 ∧ 0 < kv.2) m1 → Forall (λ kv, 0 ≤ kv.1 ∧ 0 < kv.2) m2 →
  (∀ s, om_at 0 s m1 = om_at 0 s m2) →
  m1 = m2.
Proof.
  induction m1 as [|[k1 n1] m1 IH]; intros [|[k2 n2] m2] Hs1 Hs2 Hp1 Hp2 Heq.
  - done.
  - specialize (Heq k2). simpl in Heq. rewrite Z.eqb_refl in Heq.
    apply Forall_cons in Hp2 as [[_ ?] _]. simpl in *. lia.
  - specialize (Heq k1). simpl in Heq. rewrite Z.eqb_refl in Heq.
    apply Forall_cons in Hp1 as [[_ ?] _]. simpl in *. lia.
  - apply StronglySorted_cons in Hs1 as [Hall1 Hs1].
    apply StronglySorted_cons in Hs2 as [Hall2 Hs2].
    apply Forall_cons in Hp1 as [[_ Hn1] Hp1]. apply Forall_cons in Hp2 as [[_ Hn2] Hp2].
    simpl in Hn1, Hn2.
    assert (Hbelow1 : ∀ k, k ≤ k1 → om_at 0 k m1 = 0).
    { intros k Hk. apply om_at_below. eapply Forall_impl; [exact Hall1|].
      intros [??]; unfold key_lt; simpl; lia. }
    assert (Hbelow2 : ∀ k, k ≤ k2 → om_at 0 k m2 = 0).
    { intros k Hk. apply om_at_below. eapply Forall_impl; [exact Hall2|].
      intros [??]; unfold key_lt; simpl; lia. }
    assert (k1 = k2) as ->.
    { destruct (Z.lt_trichotomy k1 k2) as [Hlt|[?|Hlt]]; [|done|].
      - specialize (Heq k1). simpl in Heq. rewrite Z.eqb_refl in Heq.
        destruct (Z.eqb_spec k1 k2); [lia|]. rewrite Hbelow2 in Heq by lia. lia.
      - specialize (Heq k2). simpl in Heq. rewrite Z.eqb_refl in Heq.
        destruct (Z.eqb_spec k2 k1); [lia|]. rewrite Hbelow1 in Heq by lia. lia. }
    assert (n1 = n2) as ->.
    { specialize (Heq k2). simpl in Heq. by rewrite Z.eqb_refl in Heq. }
    f_equal. apply IH; try done.
    intros s. destruct (Z.eqb_spec s k2) as [->|Hne].
    + by rewrite Hbelow1, Hbelow2.
    + specialize (Heq s). simpl in Heq. by destruct (Z.eqb_spec s k2).
Qed.

Lemma scan_buckets_timestamps config actual sm sm' N cur buckets : ∀ seen,
  (∀ s, timestamp (om_at default_sth s sm) = timestamp (om_at default_sth s sm')) →
  match scan_buckets config actual sm N cur buckets seen,
        scan_buckets config actual sm' N cur buckets seen with
  | None, None => True
  | Some c, Some c' =>
      ∃ s, c = om_at default_sth s sm ∧ c' = om_at default_sth s sm'
  | _, _ => False
  end.
Proof.
  intros seen Hts. revert seen.
  induction buckets as [|[s n] rest IH]; intros seen; simpl; [done|].
  destruct (s >=? cur); [|done].
  assert (Hstale : stale actual (om_at default_sth s sm)
                   = stale actual (om_at default_sth s sm')).
  { unfold stale. destruct actual; [|done]. by rewrite Hts. }
  rewrite <- Hstale.
  destruct (_ && _); [|apply IH].
  destruct (stale actual _); [apply IH|]. by exists s.
Qed.

(** X5: the order in which the peers are read does not matter: on two
    orderings of the same peers the calculation aborts on both, or selects
    nothing on both, or selects candidates of the same tree size and
    timestamp. *)
Theorem calculate_order_independent (peers peers' : list ClusterNodeState)
    (config : ClusterConfig) (calculated actual : option SignedTreeHead) :
  peers ≡ₚ peers' →
  match calculate peers config calculated actual,
        calculate peers' config calculated actual with
  | Fatal, Fatal => True
  | Ok None, Ok None => True
  | Ok (Some c), Ok (Some c') =>
      timestamp c = timestamp c' ∧ tree_size c = tree_size c'
  | _, _ => False
  end.
Proof.
  intros Hperm.
  destruct (calculate peers config calculated actual) as [r|] eqn:Hcalc.
  - destruct (calculate peers' config calculated actual) as [r'|] eqn:Hcalc'.
    + apply calculate_tallied in Hcalc as (sm & nm & _ & Hinv & _ & _ & ->).
      apply calculate_tallied in Hcalc' as (sm' & nm' & _ & Hinv' & _ & _ & ->).
      destruct Hinv as (_ & Hsorted & Hpos & Hcounts & Hkept).
      destruct Hinv' as (_ & Hsorted' & Hpos' & Hcounts' & Hkept'). simpl in *.
      assert (nm = nm') as <-.
      { apply counts_determine_buckets; try done.
        intros s. rewrite Hcounts, Hcounts'. by apply count_at_perm. }
      assert (Hts : ∀ s, timestamp (om_at default_sth s sm)
                         = timestamp (om_at default_sth s sm')).
      { intros s. destruct (Hkept s) as (Hfrom & Hnonneg & Hmax).
        destruct (Hkept' s) as (Hfrom' & Hnonneg' & Hmax').
        apply Z.le_antisymm.
        - destruct Hfrom as [->|[Hin _]]; [done|].
          apply Hmax'. by eapply in_bucket_perm.
        - destruct Hfrom' as [->|[Hin _]]; [done|].
          apply Hmax. eapply in_bucket_perm; [|done]. by symmetry. }
      rewrite <- (Permutation_length Hperm).
      pose proof (scan_buckets_timestamps config actual sm sm'
                    (Z.of_nat (length peers)) (to_int (tree_size_or_0 calculated))
                    (rev nm) 0 Hts) as Hscan.
      destruct (scan_buckets _ _ sm _ _ _ _) as [c|],
               (scan_buckets _ _ sm' _ _ _ _) as [c'|]; try done.
      destruct Hscan as (s & -> & ->). split; [apply Hts|].
      destruct (Hkept s) as (Hfrom & _ & _). destruct (Hkept' s) as (Hfrom' & _ & _).
      specialize (Hts s).
      destruct Hfrom as [Hd|[(_ & _ & _ & Hsize) Hpos1]],
               Hfrom' as [Hd'|[(_ & _ & _ & Hsize') Hpos1']].
      * by rewrite Hd, Hd'.
      * rewrite Hd in Hts. simpl in Hts. lia.
      * rewrite Hd' in Hts. simpl in Hts. lia.
      * by rewrite Hsize, Hsize'.
    + apply calculate_fatal_iff in Hcalc' as [Hbad|Hcur].
      * assert (Hfatal : calculate peers config calculated actual = Fatal).
        { apply calculate_fatal_iff. left. apply Exists_exists in Hbad as (p & Hin & ?).
          apply Exists_exists. exists p. split; [|done]. by rewrite Hperm. }
        congruence.
      * assert (Hfatal : calculate peers config calculated actual = Fatal)
          by (apply calculate_fatal_iff; by right).
        congruence.
  - apply calculate_fatal_iff in Hcalc as [Hbad|Hcur].
    + assert (Hfatal : calculate peers' config calculated actual = Fatal).
      { apply calculate_fatal_iff. left. apply Exists_exists in Hbad as (p & Hin & ?).
        apply Exists_exists. exists p. split; [|done]. by rewrite <- Hperm. }
      by rewrite Hfatal.
    + assert (Hfatal : calculate peers' config calculated actual = Fatal)
        by (apply calculate_fatal_iff; by right).
      by rewrite Hfatal.
Qed.

End Buckets.

(** ** Further properties of the registry and the controller *)

Section Registry.

Lemma apply_update_lookup (update : Update ClusterNodeState)
    (all_peers all_peers' : gmap string ClusterPeer) :
  apply_update update all_peers = Ok all_peers' →
  state_ <$> all_peers' !! Key update
  = (if exists_ update then Some (Entry update) else None)
  ∧ ∀ k, k ≠ Key update → all_peers' !! k = all_peers !! k.
Proof.
  unfold apply_update, new_ClusterPeer, UpdateClusterNodeState, emplace.
  intros Happly.
  destruct (exists_ update).
  - destruct (all_peers !! Key update) as [p|] eqn:Hlookup.
    + case_bool_decide.
      * destruct (BuildAsyncLogClient (Entry update)); [|done].
        rewrite lookup_delete_eq in Happly. simplify_eq.
        rewrite lookup_insert_eq. split; [done|].
        intros k Hk. by rewrite lookup_insert_ne, lookup_delete_ne.
      * repeat case_match; simplify_eq.
        rewrite lookup_insert_eq. split; [done|].
        intros k Hk. by rewrite lookup_insert_ne.
    + destruct (BuildAsyncLogClient (Entry update)); [|done].
      rewrite Hlookup in Happly. simplify_eq.
      rewrite lookup_insert_eq. split; [done|].
      intros k Hk. by rewrite lookup_insert_ne.
  - destruct (all_peers !! Key update); [|done]. simplify_eq.
    rewrite lookup_delete_eq. split; [done|].
    intros k Hk. by rewrite lookup_delete_ne.
Qed.

(** X7: after a batch of updates is applied, the state the registry holds
    for a node is the entry of the last update of the batch for that node,
    no peer if that update is a deletion, and the state held before if the
    batch has no update for the node. *)
Theorem last_update_wins (updates : list (Update ClusterNodeState)) :
  ∀ (all_peers all_peers' : gmap string ClusterPeer) (k : string),
  apply_updates updates all_peers = Ok all_peers' →
  state_ <$> all_peers' !! k
  = match last_update k updates with
    | Some update => if exists_ update then Some (Entry update) else None
    | None => state_ <$> all_peers !! k
    end.
Proof.
  unfold last_update.
  induction updates as [|u updates IH]; simpl; intros m m' k Hrun.
  - by simplify_eq.
  - destruct (apply_update u m) as [m1|] eqn:Hstep; [|done].
    rewrite (IH _ _ k Hrun). apply apply_update_lookup in Hstep as [Hkey Hother].
    rewrite filter_cons. case_decide as Hk.
    + subst k. destruct (filter _ updates) as [|u' l] eqn:Hfilter; simpl; [done|].
      destruct (last (u' :: l)) eqn:Hlast; [done|]. by apply last_None in Hlast.
    + destruct (last (filter _ updates)); [done|]. by rewrite Hother.
Qed.

(** X8: a node that joins and then leaves puts the registry back as it was;
    a deletion for a node the registry does not hold aborts. *)
Theorem leave_undoes_join (k : string) (state : ClusterNodeState)
    (all_peers : gmap string ClusterPeer) :
  all_peers !! k = None →
  valid_endpoint state →
  apply_updates [mkUpdate k true state; mkUpdate k false state] all_peers = Ok all_peers
  ∧ apply_updates [mkUpdate k false state] all_peers = Fatal.
Proof.
  intros Hfresh (Hhost & Hpos & Hmax). split.
  - assert (Hjoin : ∃ p, apply_update (mkUpdate k true state) all_peers
                         = Ok (<[k := p]> all_peers)).
    { unfold apply_update, new_ClusterPeer, BuildAsyncLogClient, emplace. simpl.
      rewrite Hfresh, bool_decide_eq_false_2 by done.
      destruct (Z.gtb_spec (log_port state) 0); [|lia].
      destruct (Z.leb_spec (log_port state) UINT16_MAX); [|lia]. simpl.
      rewrite Hfresh. eauto. }
    destruct Hjoin as [p Hjoin]. simpl. rewrite Hjoin.
    unfold apply_update. simpl. rewrite lookup_insert_eq.
    by rewrite delete_insert_eq, delete_id.
  - simpl. unfold apply_update. simpl. by rewrite Hfresh.
Qed.

(** X9: an update that keeps the peer's (hostname, port) replaces the
    peer's state and keeps its log client; it does not abort, whatever the
    endpoint. *)
Theorem same_endpoint_update_in_place (update : Update ClusterNodeState)
    (all_peers : gmap string ClusterPeer) (p : ClusterPeer) :
  exists_ update = true →
  all_peers !! Key update = Some p →
  GetHostPort p = (hostname (Entry update), log_port (Entry update)) →
  apply_update update all_peers
  = Ok (<[Key update := {| client := client p; state_ := Entry update |}]> all_peers).
Proof.
  intros Hex Hlookup Hsame. unfold apply_update, UpdateClusterNodeState.
  rewrite Hex, Hlookup. rewrite bool_decide_eq_false_2 by (by intros ?).
  unfold GetHostPort in Hsame. injection Hsame as Hhost Hport.
  rewrite bool_decide_eq_true_2 by done. simpl.
  by rewrite Hport, Z.eqb_refl.
Qed.

Lemma BuildAsyncLogClient_endpoint (s1 s2 : ClusterNodeState) :
  hostname s1 = hostname s2 → log_port s1 = log_port s2 →
  BuildAsyncLogClient s1 = BuildAsyncLogClient s2.
Proof. unfold BuildAsyncLogClient. by intros -> ->. Qed.

Lemma apply_update_clients (update : Update ClusterNodeState)
    (all_peers all_peers' : gmap string ClusterPeer) :
  clients_match all_peers →
  apply_update update all_peers = Ok all_peers' →
  clients_match all_peers'.
Proof.
  unfold clients_match, apply_update, new_ClusterPeer, UpdateClusterNodeState, emplace.
  intros Hinv Happly k p Hk.
  destruct (exists_ update).
  - destruct (all_peers !! Key update) as [p0|] eqn:Hlookup.
    + case_bool_decide as Hmoved.
      * destruct (BuildAsyncLogClient (Entry update)) eqn:Hbuild; [|done].
        rewrite lookup_delete_eq in Happly. simplify_eq.
        destruct (decide (k = Key update)) as [->|Hne].
        -- rewrite lookup_insert_eq in Hk. by simplify_eq.
        -- rewrite lookup_insert_ne, lookup_delete_ne in Hk by done. by apply (Hinv k).
      * case_bool_decide as Hhost; simpl in Happly; [|done].
        destruct (Z.eqb_spec (log_port (state_ p0)) (log_port (Entry update)))
          as [Hport|]; simpl in Happly; [|done].
        simplify_eq.
        destruct (decide (k = Key update)) as [->|Hne].
        -- rewrite lookup_insert_eq in Hk. simplify_eq. simpl.
           rewrite <- (Hinv _ _ Hlookup). by apply BuildAsyncLogClient_endpoint.
        -- rewrite lookup_insert_ne in Hk by done. by apply (Hinv k).
    + destruct (BuildAsyncLogClient (Entry update)) eqn:Hbuild; [|done].
      rewrite Hlookup in Happly. simplify_eq.
      destruct (decide (k = Key update)) as [->|Hne].
      * rewrite lookup_insert_eq in Hk. by simplify_eq.
      * rewrite lookup_insert_ne in Hk by done. by apply (Hinv k).
  - destruct (all_peers !! Key update); [|done]. simplify_eq.
    destruct (decide (k = Key update)) as [->|Hne].
    + by rewrite lookup_delete_eq in Hk.
    + rewrite lookup_delete_ne in Hk by done. by apply (Hinv k).
Qed.

Lemma apply_updates_clients (updates : list (Update ClusterNodeState)) :
  ∀ all_peers all_peers' : gmap string ClusterPeer,
  clients_match all_peers →
  apply_updates updates all_peers = Ok all_peers' →
  clients_match all_peers'.
Proof.
  induction updates as [|u updates IH]; simpl; intros m m' Hinv Hrun.
  - by simplify_eq.
  - destruct (apply_update u m) as [m1|] eqn:Hstep; [|done].
    eapply IH; [|done]. by eapply apply_update_clients.
Qed.


(** X10: an update that exists aborts exactly when its endpoint is not one
    a log client can be built for and no peer of the node is at that
    endpoint already; a deletion aborts exactly when the node has no peer. *)
Theorem apply_update_fatal_iff (update : Update ClusterNodeState)
    (all_peers : gmap string ClusterPeer) :
  apply_update update all_peers = Fatal
  ↔ if exists_ update then
      ¬ valid_endpoint (Entry update)
      ∧ ∀ p, all_peers !! Key update = Some p →
             GetHostPort p ≠ (hostname (Entry update), log_port (Entry update))
    else all_peers !! Key update = None.
Proof.
  assert (Hbuild : BuildAsyncLogClient (Entry update) = Fatal
                   ↔ ¬ valid_endpoint (Entry update)).
  { unfold BuildAsyncLogClient, valid_endpoint. case_bool_decide as Hhost.
    - split; [|done]. by intros _ [? _].
    - destruct (Z.gtb_spec (log_port (Entry update)) 0); simpl;
        [|split; [intros _ ?; lia|done]].
      destruct (Z.leb_spec (log_port (Entry update)) UINT16_MAX); simpl;
        [|split; [intros _ ?; lia|done]].
      split; [done|]. intros Hinvalid. exfalso. apply Hinvalid. split; [done|lia]. }
  unfold apply_update, new_ClusterPeer, UpdateClusterNodeState.
  destruct (exists_ update).
  - destruct (all_peers !! Key update) as [p|] eqn:Hlookup.
    + case_bool_decide as Hmoved.
      * destruct (BuildAsyncLogClient (Entry update)) eqn:Hb.
        -- split; [done|]. intros [Hinvalid _]. apply Hbuild in Hinvalid. congruence.
        -- split; [|done]. intros _. split; [by apply Hbuild|].
           intros p' ?. by simplify_eq.
      * split; [|intros [_ Hall]; exfalso; by eapply Hall].
        unfold GetHostPort in Hmoved.
        injection Hmoved as Hhost Hport.
        rewrite bool_decide_eq_true_2, Hport, Z.eqb_refl by done. done.
    + destruct (BuildAsyncLogClient (Entry update)) eqn:Hb.
      * split; [done|]. intros [Hinvalid _]. apply Hbuild in Hinvalid. congruence.
      * split; [|done]. intros _. split; [by apply Hbuild|done].
  - by destruct (all_peers !! Key update).
Qed.

End Registry.

Section ControllerExtras.
Context {DB EL ST : Type}.
Context `{!Database DB, !MasterElection EL, !ConsistentStore ST}.
Implicit Types c : Controller DB EL ST.
Implicit Types op : Op DB EL ST.

(** X11: in every reachable state, each peer's log client is the one
    [BuildAsyncLogClient] builds for the state the peer holds: the client
    always points at the peer's current endpoint, and that endpoint is a
    valid one. *)
Theorem registry_clients_match c :
  reachable c → clients_match (all_peers_ c).
Proof.
  induction 1 as [database store election|op c c' _ IH Hstep].
  - intros k p Hk. simpl in Hk. by rewrite lookup_empty in Hk.
  - destruct op; monad_unfold; destruct c; cases; try done.
    all: by eapply apply_updates_clients.
Qed.

(** X12: what an operation leaves alone.  Only [OnClusterStateUpdated]
    changes the registry, only [OnClusterConfigUpdated] the configuration,
    only [OnServingSthUpdated] the actual serving STH, only those first two
    the calculated serving STH, only [NewTreeHead] and [SetNodeHostPort] the
    local node state, only the destructor [exiting_], and of the
    controller's operations only [OnServingSthUpdated] the database. *)
Theorem operations_frame op c c' :
  exec (run_op op) c = Ok c' →
  ((∀ updates, op ≠ OpClusterStateUpdated updates) → all_peers_ c' = all_peers_ c)
  ∧ ((∀ update, op ≠ OpClusterConfigUpdated update) →
     cluster_config_ c' = cluster_config_ c)
  ∧ ((∀ update, op ≠ OpServingSthUpdated update) →
     actual_serving_sth_ c' = actual_serving_sth_ c)
  ∧ ((∀ updates, op ≠ OpClusterStateUpdated updates) →
     (∀ update, op ≠ OpClusterConfigUpdated update) →
     calculated_serving_sth_ c' = calculated_serving_sth_ c)
  ∧ ((∀ sth, op ≠ OpNewTreeHead sth) → (∀ host port, op ≠ OpSetNodeHostPort host port) →
     local_node_state_ c' = local_node_state_ c)
  ∧ (op ≠ OpDestroy → exiting_ c' = exiting_ c)
  ∧ ((∀ update, op ≠ OpServingSthUpdated update) →
     (∀ database store election, op ≠ OpEnvironment database store election) →
     database_ c' = database_ c).
Proof.
  intros Hstep. split_and!; intros; destruct op; try congruence;
    monad_unfold; destruct c; cases; try done.
Qed.

(** X13: no operation of a node that is not master sets
    [update_required_]. *)
Theorem only_master_requests_update op c c' :
  own_op op →
  IsMaster (election_ c) = false →
  exec (run_op op) c = Ok c' →
  update_required_ c' = true →
  update_required_ c = true.
Proof.
  intros Hown Hmaster Hstep. destruct op; try done;
    monad_unfold; destruct c; cases; try done; congruence.
Qed.

(** X14: [NewTreeHead] and [SetNodeHostPort] end with
    [SetClusterNodeState] called on the local node state as they have just
    made it, which is what [GetLocalNodeState] returns afterwards; the
    status the store returns does not matter. *)
Theorem local_state_is_pushed op c c' :
  (∃ sth, op = OpNewTreeHead sth) ∨ (∃ host port, op = OpSetNodeHostPort host port) →
  exec (run_op op) c = Ok c' →
  last (calls c') = Some (CallSetClusterNodeState (GetLocalNodeState c'))
  ∧ store_ c' = (SetClusterNodeState (GetLocalNodeState c') (store_ c)).2
  ∧ GetLocalNodeState c'
    = match op with
      | OpNewTreeHead sth =>
          {| node_id := node_id (local_node_state_ c);
             hostname := hostname (local_node_state_ c);
             log_port := log_port (local_node_state_ c);
             newest_sth := Some sth |}
      | OpSetNodeHostPort host port =>
          {| node_id := node_id (local_node_state_ c);
             hostname := host;
             log_port := port;
             newest_sth := newest_sth (local_node_state_ c) |}
      | _ => local_node_state_ c
      end.
Proof.
  unfold GetLocalNodeState.
  intros [[sth ->]|(host & port & ->)] Hstep; monad_unfold; destruct c; cases;
    rewrite ?last_snoc; split_and!; try done;
    match goal with H : SetClusterNodeState _ _ = _ |- _ => by rewrite H end.
Qed.

(** [SetNodeHostPort] has no check to fail, and ignores the store's status. *)
Lemma SetNodeHostPort_never_fatal (host : string) (port : Z) c :
  exec (SetNodeHostPort host port) c ≠ Fatal.
Proof. monad_unfold; destruct c; cases; done. Qed.

End ControllerExtras.


Section Reconciler.
Context {DB EL ST : Type}.
Context `{!Database DB, !MasterElection EL, !ConsistentStore ST}.
Implicit Types c : Controller DB EL ST.
Implicit Types op : Op DB EL ST.

(** The database answers a lookup with the tree head last written. *)
Hypothesis read_your_write : ∀ (sth : SignedTreeHead) (db db' : DB),
  WriteTreeHead sth db = (OK, db') → LatestTreeHead db' = LOOKUP_OK sth.

(** X15: with a database that answers a lookup with the tree head last
    written, after a serving-STH update that exists, with a timestamp other
    than 0, and does not abort, the actual serving STH is the update's and
    the database's latest tree head agrees with it on key id, version,
    timestamp, tree size and root hash. *)
Theorem database_holds_actual (update : Update SignedTreeHead) c c' :
  exists_ update = true →
  timestamp (Entry update) ≠ 0 →
  exec (OnServingSthUpdated update) c = Ok c' →
  actual_serving_sth_ c' = Some (Entry update)
  ∧ ∃ db_sth, LatestTreeHead (database_ c') = LOOKUP_OK db_sth
              ∧ same_tree_head (Entry update) db_sth.
Proof.
  intros Hex Hts Hstep. apply Z.eqb_neq in Hts.
  unfold OnServingSthUpdated in Hstep. rewrite Hex, Hts in Hstep. simpl in Hstep.
  unfold same_tree_head.
  monad_unfold. destruct c; cases;
    repeat match goal with
    | H : bool_decide _ = true |- _ => apply bool_decide_eq_true_1 in H
    | H : (_ =? _) = true |- _ => apply Z.eqb_eq in H
    | H : WriteTreeHead _ _ = (OK, _) |- _ => apply read_your_write in H
    end;
    (split; [done|]); eexists; (split; [eassumption|]); split_and!; congruence.
Qed.

(** X16: with such a database, no operation of the controller makes the
    timestamp or the tree size of the database's latest tree head go down,
    or the tree head go missing. *)
Theorem database_tree_head_monotone op c c' (old : SignedTreeHead) :
  own_op op →
  exec (run_op op) c = Ok c' →
  LatestTreeHead (database_ c) = LOOKUP_OK old →
  ∃ new, LatestTreeHead (database_ c') = LOOKUP_OK new
         ∧ timestamp old ≤ timestamp new
         ∧ tree_size old ≤ tree_size new.
Proof.
  intros Hown Hstep Hold.
  destruct op; try done; monad_unfold; destruct c; cases;
    repeat match goal with
    | H : (_ =? _) = true |- _ => apply Z.eqb_eq in H
    | H : (_ >? _) = true |- _ => apply Z.gtb_gt in H
    | H : (_ >=? _) = true |- _ => apply Z.geb_ge in H
    | H : WriteTreeHead _ _ = (OK, _) |- _ => apply read_your_write in H
    end;
    eexists; (split; [eassumption|]); lia.
Qed.

End Reconciler.

Section Publisher.
Context {DB EL ST : Type}.
Context `{!Database DB, !MasterElection EL, !ConsistentStore ST}.
Implicit Types c : Controller DB EL ST.
Implicit Types op : Op DB EL ST.

(** X17: every operation other than the publisher's step after
    [lock.unlock()] only appends to the log of calls, and appends no call
    to [SetServingSTH]: the store is never sent a serving STH from a step
    that holds the mutex. *)
Theorem SetServingSTH_only_unlocked op c c' :
  op ≠ OpUpdaterUnlocked →
  exec (run_op op) c = Ok c' →
  ∃ new, calls c' = calls c ++ new ∧ Forall (λ x, ¬ is_SetServingSTH x) new.
Proof.
  intros Hop Hstep. destruct op; try done; monad_unfold; destruct c; cases.
  all: first [ by (exists []; rewrite app_nil_r)
             | rewrite <- ?app_assoc; eexists; split; [reflexivity|];
               repeat (apply Forall_cons; split; [by intros []|]); by apply Forall_nil
             | eexists; split; [reflexivity|];
               repeat (apply Forall_cons; split; [by intros []|]); by apply Forall_nil ].
Qed.

(** X18: once the publisher thread has returned, it stays so, and no
    operation calls [SetServingSTH] any more. *)
Theorem exited_publisher_is_silent (ops : list (Op DB EL ST)) : ∀ c c',
  updater_thread_ c = Exited →
  run ops c = Ok c' →
  updater_thread_ c' = Exited
  ∧ ∃ new, calls c' = calls c ++ new ∧ Forall (λ x, ¬ is_SetServingSTH x) new.
Proof.
  induction ops as [|op ops IH]; simpl; intros c c' Hexited Hrun.
  - simplify_eq. split; [done|]. exists []. by rewrite app_nil_r.
  - destruct (exec (run_op op) c) as [c1|] eqn:Hstep; [|done].
    assert (Hstay : updater_thread_ c1 = Exited).
    { clear IH Hrun. destruct op; monad_unfold; destruct c; cases; done. }
    assert (Hquiet : ∃ new, calls c1 = calls c ++ new
                            ∧ Forall (λ x, ¬ is_SetServingSTH x) new).
    { assert (Hop : op = OpUpdaterUnlocked ∨ op ≠ OpUpdaterUnlocked)
        by (destruct op; auto).
      destruct Hop as [->|Hne].
      - clear IH Hrun. exists []. rewrite app_nil_r.
        monad_unfold. destruct c; cases; done.
      - by eapply SetServingSTH_only_unlocked. }
    destruct (IH _ _ Hstay Hrun) as (Hexit & new2 & Hcalls2 & Hnew2).
    destruct Hquiet as (new1 & Hcalls1 & Hnew1).
    split; [done|]. exists (new1 ++ new2). rewrite Hcalls2, Hcalls1, app_assoc.
    split; [done|]. by apply Forall_app.
Qed.


End Publisher.

Section Participation.
Context {DB EL ST : Type}.
Context `{!Database DB, !MasterElection EL, !ConsistentStore ST}.
Implicit Types c : Controller DB EL ST.
Implicit Types op : Op DB EL ST.

Lemma last_election_call_snoc (l : list Call) (x : Call) :
  last_election_call (l ++ [x])
  = if is_election_call x then Some x else last_election_call l.
Proof.
  induction l as [|y l IH]; simpl; [by destruct (is_election_call x)|].
  rewrite IH. destruct (is_election_call x); [done|].
  by destruct (last_election_call l).
Qed.

Lemma step_last_election_call op c c' :
  exec (run_op op) c = Ok c' →
  (is_Some (actual_serving_sth_ c) →
   last_election_call (calls c)
   = Some (if eligible c then CallStartElection else CallStopElection)) →
  is_Some (actual_serving_sth_ c') →
  last_election_call (calls c')
  = Some (if eligible c' then CallStartElection else CallStopElection).
Proof.
  unfold eligible. intros Hstep Hinv.
  destruct op; monad_unfold; destruct c; cases;
    intros [? ?]; simplify_eq; simpl in *;
    rewrite ?last_election_call_snoc; simpl;
    try (rewrite Hinv by eauto); try done;
    repeat match goal with
    | |- context [?a <=? ?b] => destruct (Z.leb_spec a b)
    | H : (?a >? ?b) = _ |- _ =>
        apply Z.gtb_gt in H || (rewrite Z.gtb_ltb in H; apply Z.ltb_ge in H)
    end; try done; try lia.
Qed.

(** X20: in every reachable state with an actual serving STH, the last of
    the calls to [StartElection] and [StopElection] is [StartElection] if
    the local node has an STH at least as large as the actual serving STH,
    and [StopElection] otherwise. *)
Theorem election_told_eligibility c :
  reachable c →
  is_Some (actual_serving_sth_ c) →
  last_election_call (calls c)
  = Some (if eligible c then CallStartElection else CallStopElection).
Proof.
  induction 1 as [database store election|op c c' _ IH Hstep].
  - by intros [? ?].
  - by eapply step_last_election_call.
Qed.



End Participation.

(** ** The further properties at work *)

Lemma no_candidate_means_no_bucket_serves_witness :
  enough (mkConfig 3 three_quarters) 4 (coverage 10 split_quorum) = false
  ∨ outdated None 10 split_quorum.
Proof.
  apply (no_candidate_means_no_bucket_serves split_quorum (mkConfig 3 three_quarters)
           (Some (example_sth 102 10)) None eq_refl 10).
  - reflexivity.
  - vm_compute. discriminate.
Defined.


Lemma no_sth_no_candidate_witness :
  calculate [example_node "a" None] (mkConfig 0 (S754_zero false)) None None = Ok None.
Proof.
  apply (no_sth_no_candidate [example_node "a" None]).
  - by repeat constructor.
  - vm_compute. discriminate.
Defined.

Lemma calculate_order_independent_witness :
  match calculate basic_quorum (mkConfig 3 three_quarters) None None,
        calculate (rev basic_quorum) (mkConfig 3 three_quarters) None None with
  | Fatal, Fatal => True
  | Ok None, Ok None => True
  | Ok (Some c), Ok (Some c') =>
      timestamp c = timestamp c' ∧ tree_size c = tree_size c'
  | _, _ => False
  end.
Proof.
  apply (calculate_order_independent basic_quorum (rev basic_quorum)).
  apply Permutation_rev.
Defined.

Lemma first_loop_buckets_witness :
  om_at 0 10 basic_num_nodes_by_sth_size = count_at 10 basic_quorum
  ∧ (om_at default_sth 10 basic_sth_by_size = default_sth
     ∨ in_bucket 10 basic_quorum (om_at default_sth 10 basic_sth_by_size))
  ∧ ∀ sth, in_bucket 10 basic_quorum sth →
           timestamp sth ≤ timestamp (om_at default_sth 10 basic_sth_by_size).
Proof.
  apply (first_loop_buckets basic_quorum basic_sth_by_size
           basic_num_nodes_by_sth_size 10).
  reflexivity.
Defined.

Lemma last_update_wins_witness :
  state_ <$> (<["n2" := {| client := "http://h2:80";
                           state_ := mkNodeState "n2" "h2" 80 None |}]>
                (<["n1" := {| client := "http://h1:81"; state_ := Entry n1_to_81 |}]>
                   (∅ : gmap string ClusterPeer))) !! "n1"
  = match last_update "n1" n2_joins_n1_moves with
    | Some update => if exists_ update then Some (Entry update) else None
    | None => state_ <$> n1_at_80 !! "n1"
    end.
Proof.
  apply (last_update_wins n2_joins_n1_moves n1_at_80).
  by vm_compute.
Defined.

Lemma leave_undoes_join_witness :
  apply_updates [mkUpdate "n2" true (mkNodeState "n2" "h2" 80 None);
                 mkUpdate "n2" false (mkNodeState "n2" "h2" 80 None)] n1_at_80
  = Ok n1_at_80
  ∧ apply_updates [mkUpdate "n2" false (mkNodeState "n2" "h2" 80 None)] n1_at_80
    = Fatal.
Proof.
  apply (leave_undoes_join "n2" (mkNodeState "n2" "h2" 80 None) n1_at_80).
  - reflexivity.
  - unfold valid_endpoint, UINT16_MAX. simpl. split; [congruence|lia].
Defined.

Lemma same_endpoint_update_in_place_witness :
  apply_update n1_announces n1_at_80
  = Ok (<["n1" := {| client := "http://h1:80"; state_ := Entry n1_announces |}]>
          n1_at_80).
Proof.
  apply (same_endpoint_update_in_place n1_announces n1_at_80
           {| client := "http://h1:80"; state_ := mkNodeState "n1" "h1" 80 None |});
    reflexivity.
Defined.

Lemma registry_clients_match_witness :
  clients_match (all_peers_ (after first_peer_joins fresh_master)).
Proof.
  apply (registry_clients_match (after first_peer_joins fresh_master)).
  apply (run_reachable first_peer_joins fresh_master).
  - apply reachable_new.
  - vm_compute. reflexivity.
Defined.

Lemma operations_frame_witness :
  ((∀ updates, reports_tree_head ≠ OpClusterStateUpdated updates) →
   all_peers_ (after [reports_tree_head] fresh) = all_peers_ fresh)
  ∧ ((∀ update, reports_tree_head ≠ OpClusterConfigUpdated update) →
     cluster_config_ (after [reports_tree_head] fresh)
     = cluster_config_ fresh)
  ∧ ((∀ update, reports_tree_head ≠ OpServingSthUpdated update) →
     actual_serving_sth_ (after [reports_tree_head] fresh)
     = actual_serving_sth_ fresh)
  ∧ ((∀ updates, reports_tree_head ≠ OpClusterStateUpdated updates) →
     (∀ update, reports_tree_head ≠ OpClusterConfigUpdated update) →
     calculated_serving_sth_ (after [reports_tree_head] fresh)
     = calculated_serving_sth_ fresh)
  ∧ ((∀ sth, reports_tree_head ≠ OpNewTreeHead sth) →
     (∀ host port, reports_tree_head ≠ OpSetNodeHostPort host port) →
     local_node_state_ (after [reports_tree_head] fresh)
     = local_node_state_ fresh)
  ∧ (reports_tree_head ≠ OpDestroy →
     exiting_ (after [reports_tree_head] fresh) = exiting_ fresh)
  ∧ ((∀ update, reports_tree_head ≠ OpServingSthUpdated update) →
     (∀ database store election,
        reports_tree_head ≠ OpEnvironment database store election) →
     database_ (after [reports_tree_head] fresh) = database_ fresh).
Proof.
  apply (operations_frame reports_tree_head fresh
           (after [reports_tree_head] fresh)).
  by vm_compute.
Defined.

Lemma only_master_requests_update_witness : update_required_ demoted_master = true.
Proof.
  apply (only_master_requests_update
           (OpClusterStateUpdated
              [mkUpdate "a" true (example_node "a" (Some (example_sth 100 5)))])
           demoted_master
           (after first_peer_joins demoted_master)).
  - exact I.
  - reflexivity.
  - by vm_compute.
  - by vm_compute.
Defined.

Lemma local_state_is_pushed_witness :
  last (calls (after [OpSetNodeHostPort "h1" 80] fresh))
  = Some (CallSetClusterNodeState
            (GetLocalNodeState (after [OpSetNodeHostPort "h1" 80] fresh)))
  ∧ store_ (after [OpSetNodeHostPort "h1" 80] fresh)
    = (SetClusterNodeState (GetLocalNodeState (after [OpSetNodeHostPort "h1" 80] fresh))
                           (store_ fresh)).2
  ∧ GetLocalNodeState (after [OpSetNodeHostPort "h1" 80] fresh)
    = {| node_id := node_id (local_node_state_ fresh);
         hostname := "h1";
         log_port := 80;
         newest_sth := newest_sth (local_node_state_ fresh) |}.
Proof.
  apply (local_state_is_pushed (OpSetNodeHostPort "h1" 80) fresh
           (after [OpSetNodeHostPort "h1" 80] fresh)).
  - right. by exists "h1", 80.
  - by vm_compute.
Defined.

Lemma MemDatabase_read_your_write (sth : SignedTreeHead) (db db' : MemDatabase) :
  WriteTreeHead sth db = (OK, db') → LatestTreeHead db' = LOOKUP_OK sth.
Proof. simpl. intros Hwrite. by simplify_eq. Qed.

Lemma database_holds_actual_witness :
  actual_serving_sth_ (after [OpServingSthUpdated s4_update] with_stored_sth)
  = Some (Entry s4_update)
  ∧ ∃ db_sth,
      LatestTreeHead (database_ (after [OpServingSthUpdated s4_update] with_stored_sth))
      = LOOKUP_OK db_sth
      ∧ same_tree_head (Entry s4_update) db_sth.
Proof.
  apply (database_holds_actual MemDatabase_read_your_write s4_update with_stored_sth
           (after [OpServingSthUpdated s4_update] with_stored_sth)).
  - reflexivity.
  - simpl. lia.
  - by vm_compute.
Defined.

Lemma database_tree_head_monotone_witness :
  ∃ new,
    LatestTreeHead (database_ (after [OpServingSthUpdated s4_update] with_stored_sth))
    = LOOKUP_OK new
    ∧ timestamp (example_sth 100 5) ≤ timestamp new
    ∧ tree_size (example_sth 100 5) ≤ tree_size new.
Proof.
  apply (database_tree_head_monotone MemDatabase_read_your_write
           (OpServingSthUpdated s4_update) with_stored_sth
           (after [OpServingSthUpdated s4_update] with_stored_sth) (example_sth 100 5)).
  - exact I.
  - by vm_compute.
  - reflexivity.
Defined.

Lemma SetServingSTH_only_unlocked_witness :
  ∃ new,
    calls (after [OpUpdaterLocked] master_with_candidate)
    = calls master_with_candidate ++ new
    ∧ Forall (λ x, ¬ is_SetServingSTH x) new.
Proof.
  apply (SetServingSTH_only_unlocked OpUpdaterLocked master_with_candidate
           (after [OpUpdaterLocked] master_with_candidate)).
  - discriminate.
  - by vm_compute.
Defined.

Lemma exited_publisher_is_silent_witness :
  updater_thread_ (after [OpUpdaterLocked; OpUpdaterUnlocked] exited_publisher) = Exited
  ∧ ∃ new,
      calls (after [OpUpdaterLocked; OpUpdaterUnlocked] exited_publisher)
      = calls exited_publisher ++ new
      ∧ Forall (λ x, ¬ is_SetServingSTH x) new.
Proof.
  apply (exited_publisher_is_silent [OpUpdaterLocked; OpUpdaterUnlocked]
           exited_publisher
           (after [OpUpdaterLocked; OpUpdaterUnlocked] exited_publisher)).
  - reflexivity.
  - by vm_compute.
Defined.


Lemma election_told_eligibility_witness :
  last_election_call (calls (after node_catches_up fresh))
  = Some (if eligible (after node_catches_up fresh)
          then CallStartElection else CallStopElection).
Proof.
  apply (election_told_eligibility (after node_catches_up fresh)).
  - apply (run_reachable node_catches_up fresh).
    + apply reachable_new.
    + by vm_compute.
  - by eexists.
Defined.


